(** * Transfermarkt workflow console: the client page

    A shallow embedding of the React page component (the job form, the
    event-stream handlers and the two module-level helpers [parseTeamIds]
    and [downloadUrl]) together with the properties its specification
    states about them.

    JavaScript strings are sequences of UTF-16 code units; they are
    modelled as [list N].  Component state is a record, every hook
    callback is a function on that record written in the order of the
    statements of the source, and the browser objects the callbacks hold
    on to (the [EventSource] instances, the pending [fetch] calls) live
    in the same record. *)

From Stdlib Require Import NArith Ascii String.
From stdpp Require Import base tactics option numbers gmap list.

Local Open Scope N_scope.

(** ** JavaScript strings *)

Abbreviation JSString := (list N).

(** A literal of the source, as code units (every literal used below is
    ASCII except the ellipsis of the starting status, added by hand). *)
Definition js (s : string) : JSString :=
  N_of_ascii <$> list_ascii_of_string s.

(** ECMAScript [WhiteSpace]: TAB, VT, FF, SP, NBSP, ZWNBSP and the
    Unicode space separators. *)
Definition isWhiteSpace (c : N) : bool :=
  (c =? 9) || (c =? 11) || (c =? 12) || (c =? 32) || (c =? 160)
  || (c =? 5760) || ((8192 <=? c) && (c <=? 8202))
  || (c =? 8239) || (c =? 8287) || (c =? 12288) || (c =? 65279).

(** ECMAScript [LineTerminator]: LF, CR, LS, PS. *)
Definition isLineTerminator (c : N) : bool :=
  (c =? 10) || (c =? 13) || (c =? 8232) || (c =? 8233).

(** The code units [String.prototype.trim] strips. *)
Definition isTrimmable (c : N) : bool := isWhiteSpace c || isLineTerminator c.

Fixpoint dropWhile (p : N → bool) (s : JSString) : JSString :=
  match s with
  | [] => []
  | c :: s' => if p c then dropWhile p s' else s
  end.

Definition trimStart (s : JSString) : JSString := dropWhile isTrimmable s.
Definition trimEnd (s : JSString) : JSString :=
  reverse (dropWhile isTrimmable (reverse s)).

(** [String.prototype.trim]. *)
Definition trim (s : JSString) : JSString := trimEnd (trimStart s).

(** The character class of the separator pattern [/[\n,]+/]. *)
Definition isSeparator (c : N) : bool := (c =? 10) || (c =? 44).

(** [input.split(/[\n,]+/)]: the pieces between maximal runs of
    separators.  A leading or trailing run leaves an empty first or last
    piece and the empty string gives one empty piece, as the built-in
    does.  [inRun] tells that the previous code unit was a separator, so
    that a run counts once; the head of the result is the piece being
    read. *)
Fixpoint split (s : JSString) (inRun : bool) : list JSString :=
  match s with
  | [] => [[]]
  | c :: s' =>
      if isSeparator c then
        if inRun then split s' true else [] :: split s' true
      else
        match split s' false with
        | piece :: pieces => (c :: piece) :: pieces
        | [] => [[c]]
        end
  end.

(** [Array.prototype.join]. *)
Fixpoint join (sep : JSString) (parts : list JSString) : JSString :=
  match parts with
  | [] => []
  | part :: rest =>
      match rest with
      | [] => part
      | _ :: _ => part ++ sep ++ join sep rest
      end
  end.

(** [Boolean] on a string: the empty string is the only falsy one. *)
Definition Boolean (s : JSString) : bool :=
  match s with [] => false | _ :: _ => true end.

(** [parseTeamIds], source lines 27-32. *)
Definition parseTeamIds (input : JSString) : list JSString :=
  filter Boolean (trim <$> split input false).

(** ** Percent-encoding *)

(** [uriUnescaped] of ECMAScript: letters, digits and [-_.!~*'()]. *)
Definition isUnreserved (c : N) : bool :=
  ((65 <=? c) && (c <=? 90)) || ((97 <=? c) && (c <=? 122))
  || ((48 <=? c) && (c <=? 57))
  || (c =? 45) || (c =? 95) || (c =? 46) || (c =? 33) || (c =? 126)
  || (c =? 42) || (c =? 39) || (c =? 40) || (c =? 41).

Definition isLeadSurrogate (c : N) : bool := (55296 <=? c) && (c <=? 56319).
Definition isTrailSurrogate (c : N) : bool := (56320 <=? c) && (c <=? 57343).

(** The code point of a surrogate pair. *)
Definition pairCodePoint (lead trail : N) : N :=
  (lead - 55296) * 1024 + (trail - 56320) + 65536.

(** The UTF-8 octets of a code point. *)
Definition utf8 (cp : N) : list N :=
  if cp <? 128 then [cp]
  else if cp <? 2048 then [192 + cp / 64; 128 + cp mod 64]
  else if cp <? 65536 then
    [224 + cp / 4096; 128 + (cp / 64) mod 64; 128 + cp mod 64]
  else
    [240 + cp / 262144; 128 + (cp / 4096) mod 64;
     128 + (cp / 64) mod 64; 128 + cp mod 64].

(** An upper-case hexadecimal digit. *)
Definition hexDigit (d : N) : N := if d <? 10 then 48 + d else 55 + d.

(** ["%XX"] for one octet. *)
Definition percent (octet : N) : JSString :=
  [37; hexDigit (octet / 16); hexDigit (octet mod 16)].

Definition escape (cp : N) : JSString := mjoin (percent <$> utf8 cp).

(** [encodeURIComponent] (ECMAScript [Encode] with the unreserved set):
    [None] is the [URIError] it throws on an unpaired surrogate. *)
Fixpoint encodeURIComponent (s : JSString) : option JSString :=
  match s with
  | [] => Some []
  | c :: rest =>
      if isUnreserved c then (c ::.) <$> encodeURIComponent rest
      else if isLeadSurrogate c then
        match rest with
        | d :: rest' =>
            if isTrailSurrogate d
            then (escape (pairCodePoint c d) ++.) <$> encodeURIComponent rest'
            else None
        | [] => None
        end
      else if isTrailSurrogate c then None
      else (escape c ++.) <$> encodeURIComponent rest
  end.

(** What URL-decoding means: ECMAScript's [decodeURIComponent].  It reads
    the string as literal code units and [%XX] octets, then turns each
    run of octets that is one UTF-8 sequence into the UTF-16 form of its
    code point; [None] is the [URIError] of a broken escape. *)
Inductive Token := Lit (c : N) | Oct (b : N).

Definition unhex (c : N) : option N :=
  if (48 <=? c) && (c <=? 57) then Some (c - 48)
  else if (65 <=? c) && (c <=? 70) then Some (c - 55)
  else if (97 <=? c) && (c <=? 102) then Some (c - 87)
  else None.

Fixpoint tokens (s : JSString) : option (list Token) :=
  match s with
  | [] => Some []
  | c :: rest =>
      if c =? 37 then
        match rest with
        | h :: l :: rest' =>
            hi ← unhex h; lo ← unhex l;
            (Oct (16 * hi + lo) ::.) <$> tokens rest'
        | _ => None
        end
      else (Lit c ::.) <$> tokens rest
  end.

Definition isContinuation (b : N) : bool := (128 <=? b) && (b <=? 191).

(** The UTF-16 code units of a code point. *)
Definition utf16 (cp : N) : JSString :=
  if cp <? 65536 then [cp]
  else [55296 + (cp - 65536) / 1024; 56320 + (cp - 65536) mod 1024].

Fixpoint decodeTokens (ts : list Token) : option JSString :=
  match ts with
  | [] => Some []
  | Lit c :: ts' => (c ::.) <$> decodeTokens ts'
  | Oct b :: ts' =>
      if b <? 128 then (b ::.) <$> decodeTokens ts'
      else if (192 <=? b) && (b <=? 223) then
        match ts' with
        | Oct b1 :: ts2 =>
            let cp := (b - 192) * 64 + (b1 - 128) in
            if isContinuation b1 && (128 <=? cp)
            then (utf16 cp ++.) <$> decodeTokens ts2 else None
        | _ => None
        end
      else if (224 <=? b) && (b <=? 239) then
        match ts' with
        | Oct b1 :: Oct b2 :: ts3 =>
            let cp := (b - 224) * 4096 + (b1 - 128) * 64 + (b2 - 128) in
            if isContinuation b1 && isContinuation b2 && (2048 <=? cp)
               && negb ((55296 <=? cp) && (cp <=? 57343))
            then (utf16 cp ++.) <$> decodeTokens ts3 else None
        | _ => None
        end
      else if (240 <=? b) && (b <=? 247) then
        match ts' with
        | Oct b1 :: Oct b2 :: Oct b3 :: ts4 =>
            let cp := (b - 240) * 262144 + (b1 - 128) * 4096
                      + (b2 - 128) * 64 + (b3 - 128) in
            if isContinuation b1 && isContinuation b2 && isContinuation b3
               && (65536 <=? cp) && (cp <=? 1114111)
            then (utf16 cp ++.) <$> decodeTokens ts4 else None
        | _ => None
        end
      else None
  end.

Definition decodeURIComponent (s : JSString) : option JSString :=
  tokens s ≫= decodeTokens.

(** A string the encoder accepts: 16-bit code units, every surrogate
    paired (the strings on which [String.prototype.isWellFormed] holds). *)
Fixpoint isWellFormed (s : JSString) : bool :=
  match s with
  | [] => true
  | c :: rest =>
      if isLeadSurrogate c then
        match rest with
        | d :: rest' => isTrailSurrogate d && isWellFormed rest'
        | [] => false
        end
      else (c <? 65536) && negb (isTrailSurrogate c) && isWellFormed rest
  end.

(** ** Wire and browser data *)

Module FieldOption.
Record t := { id : JSString; label : JSString }.
End FieldOption.

Module Team.
Record t := { club_id : JSString; club_name : JSString }.
End Team.

Module JobResult.
Record t := {
  teams : list Team.t;
  club_ids_csv : JSString;
  generated_csvs : list JSString;
  augmented_csvs : list JSString;
  workbook : JSString;
  selected_fields : list JSString
}.
End JobResult.

(** A parsed stream payload.  The cast [as StreamEvent] checks nothing,
    so the object is whatever was sent: a [type] tag and the fields the
    handler reads, each possibly absent. *)
Module StreamEvent.
Record t := {
  type : JSString;
  status : option JSString;
  message : option JSString;
  error : option JSString;
  timestamp : option JSString;
  data : option JobResult.t
}.
End StreamEvent.

(** A [message] event of the [EventSource]: its [data], and what
    [JSON.parse(evt.data)] makes of it ([None] when parsing the data, or
    reading the tag of what it parsed to, throws). *)
Module MessageEvent.
Record t := { data : JSString; parsed : option StreamEvent.t }.
End MessageEvent.

(** The platform's clock, as the log handler uses it:
    [new Date(t).toLocaleTimeString()] and [new Date().toLocaleTimeString()]. *)
Record Clock := {
  toLocaleTimeString : JSString → JSString;
  nowLocaleTimeString : JSString
}.

(** A thrown value: an [Error] with its message, or something else. *)
Inductive Thrown := ErrorObject (message : JSString) | NotAnError.

(** A settled promise. *)
Inductive Settled (A : Type) := Fulfilled (a : A) | Rejected (err : Thrown).
Arguments Fulfilled {A} a.
Arguments Rejected {A} err.

(** The fields the page reads from a response body. *)
Module Payload.
Record t := {
  fields : option (list FieldOption.t);
  default : option (list JSString);
  detail : option JSString;
  job_id : option JSString
}.
End Payload.

Module Response.
Record t := { ok : bool; json : Settled Payload.t }.
End Response.

(** An [EventSource] the page created: its URL, whether [close()] was
    called on it, and the [result] its [onerror] closure captured. *)
Module EventSource.
Record t := { url : JSString; closed : bool; result : option JobResult.t }.
End EventSource.

(** A [fetch] call as issued. *)
Inductive Request :=
| GET (url : JSString)
| POST (url : JSString) (team_ids : list JSString)
       (season_id : option JSString) (fields : list JSString).

(** An async function suspended at its [fetch]: [fetchFields], or an
    [onSubmit] call holding the [startStream] of its render, whose
    closure captured that render's [result]. *)
Inductive Await := AwaitFields | AwaitRun (result : option JobResult.t).

Inductive ConsoleEntry := ConsoleError (err : Thrown) | ConsoleParseFailure.

(** ** Component state

    The twelve hooks of [HomePage] (source lines 38-49) and, below them,
    the browser side: every [EventSource] created so far ([eventSourceRef]
    holds an index into it), the pending fetches, the requests issued and
    the console. *)
Record State := {
  teamInput : JSString;
  seasonId : JSString;
  fieldOptions : list FieldOption.t;
  defaultFields : list JSString;
  selectedFields : list JSString;
  jobId : option JSString;
  jobStatus : JSString;
  logs : list JSString;
  error : option JSString;
  result : option JobResult.t;
  eventSourceRef : option nat;
  isSubmitting : bool;
  sources : list EventSource.t;
  inflight : list Await;
  network : list Request;
  console : list ConsoleEntry
}.

Definition setTeamInput (v : JSString) (st : State) : State :=
  {| teamInput := v; seasonId := seasonId st;
     fieldOptions := fieldOptions st;
     defaultFields := defaultFields st;
     selectedFields := selectedFields st; jobId := jobId st;
     jobStatus := jobStatus st; logs := logs st; error := error st;
     result := result st; eventSourceRef := eventSourceRef st;
     isSubmitting := isSubmitting st; sources := sources st;
     inflight := inflight st; network := network st;
     console := console st |}.

Definition setSeasonId (v : JSString) (st : State) : State :=
  {| teamInput := teamInput st; seasonId := v;
     fieldOptions := fieldOptions st;
     defaultFields := defaultFields st;
     selectedFields := selectedFields st; jobId := jobId st;
     jobStatus := jobStatus st; logs := logs st; error := error st;
     result := result st; eventSourceRef := eventSourceRef st;
     isSubmitting := isSubmitting st; sources := sources st;
     inflight := inflight st; network := network st;
     console := console st |}.

Definition setFieldOptions (v : list FieldOption.t) (st : State) : State :=
  {| teamInput := teamInput st; seasonId := seasonId st;
     fieldOptions := v; defaultFields := defaultFields st;
     selectedFields := selectedFields st; jobId := jobId st;
     jobStatus := jobStatus st; logs := logs st; error := error st;
     result := result st; eventSourceRef := eventSourceRef st;
     isSubmitting := isSubmitting st; sources := sources st;
     inflight := inflight st; network := network st;
     console := console st |}.

Definition setDefaultFields (v : list JSString) (st : State) : State :=
  {| teamInput := teamInput st; seasonId := seasonId st;
     fieldOptions := fieldOptions st; defaultFields := v;
     selectedFields := selectedFields st; jobId := jobId st;
     jobStatus := jobStatus st; logs := logs st; error := error st;
     result := result st; eventSourceRef := eventSourceRef st;
     isSubmitting := isSubmitting st; sources := sources st;
     inflight := inflight st; network := network st;
     console := console st |}.

Definition setSelectedFields (v : list JSString) (st : State) : State :=
  {| teamInput := teamInput st; seasonId := seasonId st;
     fieldOptions := fieldOptions st;
     defaultFields := defaultFields st; selectedFields := v;
     jobId := jobId st; jobStatus := jobStatus st; logs := logs st;
     error := error st; result := result st;
     eventSourceRef := eventSourceRef st;
     isSubmitting := isSubmitting st; sources := sources st;
     inflight := inflight st; network := network st;
     console := console st |}.

Definition setJobId (v : option JSString) (st : State) : State :=
  {| teamInput := teamInput st; seasonId := seasonId st;
     fieldOptions := fieldOptions st;
     defaultFields := defaultFields st;
     selectedFields := selectedFields st; jobId := v;
     jobStatus := jobStatus st; logs := logs st; error := error st;
     result := result st; eventSourceRef := eventSourceRef st;
     isSubmitting := isSubmitting st; sources := sources st;
     inflight := inflight st; network := network st;
     console := console st |}.

Definition setJobStatus (v : JSString) (st : State) : State :=
  {| teamInput := teamInput st; seasonId := seasonId st;
     fieldOptions := fieldOptions st;
     defaultFields := defaultFields st;
     selectedFields := selectedFields st; jobId := jobId st;
     jobStatus := v; logs := logs st; error := error st;
     result := result st; eventSourceRef := eventSourceRef st;
     isSubmitting := isSubmitting st; sources := sources st;
     inflight := inflight st; network := network st;
     console := console st |}.

Definition setLogs (v : list JSString) (st : State) : State :=
  {| teamInput := teamInput st; seasonId := seasonId st;
     fieldOptions := fieldOptions st;
     defaultFields := defaultFields st;
     selectedFields := selectedFields st; jobId := jobId st;
     jobStatus := jobStatus st; logs := v; error := error st;
     result := result st; eventSourceRef := eventSourceRef st;
     isSubmitting := isSubmitting st; sources := sources st;
     inflight := inflight st; network := network st;
     console := console st |}.

Definition setError (v : option JSString) (st : State) : State :=
  {| teamInput := teamInput st; seasonId := seasonId st;
     fieldOptions := fieldOptions st;
     defaultFields := defaultFields st;
     selectedFields := selectedFields st; jobId := jobId st;
     jobStatus := jobStatus st; logs := logs st; error := v;
     result := result st; eventSourceRef := eventSourceRef st;
     isSubmitting := isSubmitting st; sources := sources st;
     inflight := inflight st; network := network st;
     console := console st |}.

Definition setResult (v : option JobResult.t) (st : State) : State :=
  {| teamInput := teamInput st; seasonId := seasonId st;
     fieldOptions := fieldOptions st;
     defaultFields := defaultFields st;
     selectedFields := selectedFields st; jobId := jobId st;
     jobStatus := jobStatus st; logs := logs st; error := error st;
     result := v; eventSourceRef := eventSourceRef st;
     isSubmitting := isSubmitting st; sources := sources st;
     inflight := inflight st; network := network st;
     console := console st |}.

Definition assignEventSourceRef (v : option nat) (st : State) : State :=
  {| teamInput := teamInput st; seasonId := seasonId st;
     fieldOptions := fieldOptions st;
     defaultFields := defaultFields st;
     selectedFields := selectedFields st; jobId := jobId st;
     jobStatus := jobStatus st; logs := logs st; error := error st;
     result := result st; eventSourceRef := v;
     isSubmitting := isSubmitting st; sources := sources st;
     inflight := inflight st; network := network st;
     console := console st |}.

Definition setIsSubmitting (v : bool) (st : State) : State :=
  {| teamInput := teamInput st; seasonId := seasonId st;
     fieldOptions := fieldOptions st;
     defaultFields := defaultFields st;
     selectedFields := selectedFields st; jobId := jobId st;
     jobStatus := jobStatus st; logs := logs st; error := error st;
     result := result st; eventSourceRef := eventSourceRef st;
     isSubmitting := v; sources := sources st;
     inflight := inflight st; network := network st;
     console := console st |}.

Definition withSources (v : list EventSource.t) (st : State) : State :=
  {| teamInput := teamInput st; seasonId := seasonId st;
     fieldOptions := fieldOptions st;
     defaultFields := defaultFields st;
     selectedFields := selectedFields st; jobId := jobId st;
     jobStatus := jobStatus st; logs := logs st; error := error st;
     result := result st; eventSourceRef := eventSourceRef st;
     isSubmitting := isSubmitting st; sources := v;
     inflight := inflight st; network := network st;
     console := console st |}.

Definition withInflight (v : list Await) (st : State) : State :=
  {| teamInput := teamInput st; seasonId := seasonId st;
     fieldOptions := fieldOptions st;
     defaultFields := defaultFields st;
     selectedFields := selectedFields st; jobId := jobId st;
     jobStatus := jobStatus st; logs := logs st; error := error st;
     result := result st; eventSourceRef := eventSourceRef st;
     isSubmitting := isSubmitting st; sources := sources st;
     inflight := v; network := network st; console := console st |}.

Definition withNetwork (v : list Request) (st : State) : State :=
  {| teamInput := teamInput st; seasonId := seasonId st;
     fieldOptions := fieldOptions st;
     defaultFields := defaultFields st;
     selectedFields := selectedFields st; jobId := jobId st;
     jobStatus := jobStatus st; logs := logs st; error := error st;
     result := result st; eventSourceRef := eventSourceRef st;
     isSubmitting := isSubmitting st; sources := sources st;
     inflight := inflight st; network := v; console := console st |}.

Definition withConsole (v : list ConsoleEntry) (st : State) : State :=
  {| teamInput := teamInput st; seasonId := seasonId st;
     fieldOptions := fieldOptions st;
     defaultFields := defaultFields st;
     selectedFields := selectedFields st; jobId := jobId st;
     jobStatus := jobStatus st; logs := logs st; error := error st;
     result := result st; eventSourceRef := eventSourceRef st;
     isSubmitting := isSubmitting st; sources := sources st;
     inflight := inflight st; network := network st; console := v |}.

(** ** The page's callbacks *)

Section HomePage.

(** [process.env.NEXT_PUBLIC_API_BASE_URL], fixed when the page is built. *)
Variable NEXT_PUBLIC_API_BASE_URL : option JSString.

(** Source line 5. *)
Definition API_BASE : JSString :=
  default (js "http://localhost:8080") NEXT_PUBLIC_API_BASE_URL.

(** [downloadUrl], source lines 34-35; it throws when the encoder does. *)
Definition downloadUrl (path : JSString) : option JSString :=
  encoded ← encodeURIComponent path;
  Some (API_BASE ++ js "/download?path=" ++ encoded).

(** A value that may be absent, inside a template literal. *)
Definition template (v : option JSString) : JSString :=
  default (js "undefined") v.

(** [a || b] and truthiness on a string that may be absent. *)
Definition truthy (v : option JSString) : bool :=
  match v with Some s => Boolean s | None => false end.
Definition orElse (v : option JSString) (fallback : JSString) : JSString :=
  match v with
  | Some s => if Boolean s then s else fallback
  | None => fallback
  end.

(** [source.close()] on the [s]-th event source. *)
Definition setClosed (e : EventSource.t) : EventSource.t :=
  {| EventSource.url := EventSource.url e;
     EventSource.closed := true;
     EventSource.result := EventSource.result e |}.
Definition close (s : nat) (st : State) : State :=
  withSources (alter setClosed s (sources st)) st.

(** [eventSourceRef.current?.close()]. *)
Definition closeCurrent (st : State) : State :=
  match eventSourceRef st with
  | Some s => close s st
  | None => st
  end.

(** The first render: initial hook values, and the mount effect has
    called [fetchFields] (source lines 38-49, 51-70). *)
Definition mount : State :=
  {| teamInput := []; seasonId := [];
     fieldOptions := []; defaultFields := []; selectedFields := [];
     jobId := None; jobStatus := js "Idle"; logs := [];
     error := None; result := None;
     eventSourceRef := None; isSubmitting := false;
     sources := []; inflight := [AwaitFields];
     network := [GET (API_BASE ++ js "/api/fields")]; console := [] |}.

(** The [catch] of [fetchFields]. *)
Definition fetchFields_catch (err : Thrown) (st : State) : State :=
  let st := withConsole (console st ++ [ConsoleError err]) st in
  setError (Some (js "Unable to load workbook fields. Refresh and try again.")) st.

(** [fetchFields] from its [await fetch] on, source lines 54-67. *)
Definition fetchFields_resume (r : Settled Response.t) (st : State) : State :=
  match r with
  | Rejected err => fetchFields_catch err st
  | Fulfilled response =>
      if negb (Response.ok response)
      then fetchFields_catch (ErrorObject (js "Failed to load field definitions")) st
      else
        match Response.json response with
        | Rejected err => fetchFields_catch err st
        | Fulfilled payload =>
            let options := default [] (Payload.fields payload) in
            let defaults := default [] (Payload.default payload) in
            let st := setFieldOptions options st in
            let st := setDefaultFields defaults st in
            setSelectedFields defaults st
        end
  end.

(** The effect's cleanup, source lines 72-74. *)
Definition unmount (st : State) : State := closeCurrent st.

(** Source lines 85-93. *)
Definition resetJobState (st : State) : State :=
  let st := closeCurrent st in
  let st := assignEventSourceRef None st in
  let st := setJobId None st in
  let st := setJobStatus (js "Starting" ++ [8230]) st in
  let st := setLogs [] st in
  let st := setResult None st in
  setError None st.

(** Source lines 95-97. *)
Definition appendLog (line : JSString) (st : State) : State :=
  setLogs (logs st ++ [line]) st.

(** [a === b] on strings. *)
Definition strictEq (a b : JSString) : bool := bool_decide (a = b).

(** Source lines 99-126: four independent tests of the tag. *)
Definition handleStreamEvent (clock : Clock) (event : StreamEvent.t)
    (st : State) : State :=
  let st :=
    if strictEq (StreamEvent.type event) (js "status")
    then setJobStatus (default (js "running") (StreamEvent.status event)) st
    else st in
  let st :=
    if strictEq (StreamEvent.type event) (js "log") then
      let timestamp :=
        if truthy (StreamEvent.timestamp event)
        then toLocaleTimeString clock (template (StreamEvent.timestamp event))
        else nowLocaleTimeString clock in
      appendLog (js "[" ++ timestamp ++ js "] "
                 ++ template (StreamEvent.message event)) st
    else st in
  let st :=
    if strictEq (StreamEvent.type event) (js "error") then
      let st := setJobStatus (js "failed") st in
      let st := setError
                  (Some (orElse (StreamEvent.error event) (js "Workflow failed")))
                  st in
      let st := closeCurrent st in
      let st := assignEventSourceRef None st in
      setIsSubmitting false st
    else st in
  if strictEq (StreamEvent.type event) (js "result") then
    let st := setJobStatus (js "completed") st in
    let st := setResult (StreamEvent.data event) st in
    let st := closeCurrent st in
    let st := assignEventSourceRef None st in
    setIsSubmitting false st
  else st.

(** [source.onmessage], source lines 133-141. *)
Definition onmessage (clock : Clock) (evt : MessageEvent.t) (st : State) : State :=
  if negb (Boolean (MessageEvent.data evt)) then st
  else
    match MessageEvent.parsed evt with
    | Some payload => handleStreamEvent clock payload st
    | None => withConsole (console st ++ [ConsoleParseFailure]) st
    end.

(** [source.onerror] of the [s]-th event source, source lines 142-149.
    [result] is the variable of the closure, not the hook's current
    value. *)
Definition onerror (s : nat) (st : State) : State :=
  let result := sources st !! s ≫= EventSource.result in
  let st := close s st in
  let st := assignEventSourceRef None st in
  let st := setIsSubmitting false st in
  match result with
  | None => setError (Some (js "Connection to workflow stream lost.")) st
  | Some _ => st
  end.

(** [startStream], source lines 128-152.  It is a [useCallback] with
    dependencies [[handleStreamEvent, result]]: the function a render
    hands out closes over the [result] of that render, and so does the
    [onerror] handler it installs.  [result] below is that captured
    value. *)
Definition startStream (result : option JobResult.t) (id : option JSString)
    (st : State) : State :=
  let st := closeCurrent st in
  let source :=
    {| EventSource.url := API_BASE ++ js "/api/jobs/" ++ template id ++ js "/stream";
       EventSource.closed := false;
       EventSource.result := result |} in
  let s := length (sources st) in
  let st := withSources (sources st ++ [source]) st in
  assignEventSourceRef (Some s) st.

(** [onSubmit] up to its [await fetch], source lines 155-173.  The
    [startStream] it will call after the [await] is the one of the render
    in which the form was submitted; [resetJobState] only schedules
    [setResult(null)] for the next render, so that [startStream] still
    holds the result shown at submission. *)
Definition onSubmit (st : State) : State :=
  let clubIds := parseTeamIds (teamInput st) in
  if bool_decide (length clubIds = 0%nat) then
    setError (Some (js "Provide at least one club ID.")) st
  else
    let startStream_result := result st in
    let request :=
      POST (API_BASE ++ js "/api/run") clubIds
           (let season := trim (seasonId st) in
            if Boolean season then Some season else None)
           (selectedFields st) in
    let st := resetJobState st in
    let st := setIsSubmitting true st in
    let st := withNetwork (network st ++ [request]) st in
    withInflight (inflight st ++ [AwaitRun startStream_result]) st.

(** The [catch] of [onSubmit], source lines 182-187. *)
Definition onSubmit_catch (err : Thrown) (st : State) : State :=
  let st := withConsole (console st ++ [ConsoleError err]) st in
  let st :=
    setError
      (Some (match err with
             | ErrorObject message => message
             | NotAnError => js "Unable to start workflow"
             end)) st in
  let st := setJobStatus (js "failed") st in
  setIsSubmitting false st.

(** [onSubmit] from its [await fetch] on, source lines 174-187. *)
Definition onSubmit_resume (result : option JobResult.t)
    (r : Settled Response.t) (st : State) : State :=
  match r with
  | Rejected err => onSubmit_catch err st
  | Fulfilled response =>
      if negb (Response.ok response) then
        let detail :=
          match Response.json response with
          | Fulfilled payload => Payload.detail payload
          | Rejected _ => Some (js "Workflow failed")
          end in
        onSubmit_catch (ErrorObject (orElse detail (js "Workflow failed"))) st
      else
        match Response.json response with
        | Rejected err => onSubmit_catch err st
        | Fulfilled payload =>
            let st := setJobId (Payload.job_id payload) st in
            let st := setJobStatus (js "running") st in
            startStream result (Payload.job_id payload) st
        end
  end.

(** Source lines 192-213. *)
Definition toggleField (fieldId : JSString) (st : State) : State :=
  let prev := selectedFields st in
  setSelectedFields
    (if bool_decide (fieldId ∈ prev)
     then filter (λ id, id ≠ fieldId) prev
     else prev ++ [fieldId]) st.
Definition selectAll (st : State) : State :=
  setSelectedFields (FieldOption.id <$> fieldOptions st) st.
Definition selectDefault (st : State) : State :=
  setSelectedFields (defaultFields st) st.
Definition clearFields (st : State) : State := setSelectedFields [] st.

(** ** Executions

    What can happen to a mounted page, one callback at a time (the
    event loop runs a callback to its end before the next one). *)
Inductive Action :=
| Settle (k : nat) (r : Settled Response.t)
| TeamInputChange (value : JSString)
| SeasonIdChange (value : JSString)
| ToggleField (fieldId : JSString)
| SelectAll
| SelectDefault
| ClearFields
| Submit
| StreamMessage (s : nat) (clock : Clock) (evt : MessageEvent.t)
| StreamError (s : nat)
| Unmount.

(** An event source dispatches events until [close()] is called on it. *)
Definition isOpen (s : nat) (st : State) : bool :=
  match sources st !! s with
  | Some e => negb (EventSource.closed e)
  | None => false
  end.

Definition dispatch (a : Action) (st : State) : State :=
  match a with
  | Settle k r =>
      match inflight st !! k with
      | Some AwaitFields =>
          fetchFields_resume r (withInflight (delete k (inflight st)) st)
      | Some (AwaitRun result) =>
          onSubmit_resume result r (withInflight (delete k (inflight st)) st)
      | None => st
      end
  | TeamInputChange value => setTeamInput value st
  | SeasonIdChange value => setSeasonId value st
  | ToggleField fieldId => toggleField fieldId st
  | SelectAll => selectAll st
  | SelectDefault => selectDefault st
  | ClearFields => clearFields st
  | Submit => onSubmit st
  | StreamMessage s clock evt =>
      if isOpen s st then onmessage clock evt st else st
  | StreamError s => if isOpen s st then onerror s st else st
  | Unmount => unmount st
  end.

Definition run (actions : list Action) (st : State) : State :=
  foldl (λ st a, dispatch a st) st actions.

(** The stream's own events. *)
Definition isStreamAction (a : Action) : bool :=
  match a with
  | StreamMessage _ _ _ | StreamError _ => true
  | _ => false
  end.

(** States of an execution in which every step passes [allowed]. *)
Inductive reachable_by (allowed : Action → State → bool) : State → Prop :=
| reachable_mount : reachable_by allowed mount
| reachable_dispatch st a :
    reachable_by allowed st → allowed a st = true →
    reachable_by allowed (dispatch a st).

(** Callbacks called in any order. *)
Definition reachable : State → Prop := reachable_by (λ _ _, true).

(** What the form lets through to [onSubmit]: the submit button is
    [disabled={isSubmitting}] and the text area is [required] (source
    lines 273-280, 365-373). *)
Definition enabled (a : Action) (st : State) : bool :=
  match a with
  | Submit => negb (isSubmitting st) && Boolean (teamInput st)
  | _ => true
  end.

(** Executions driven through the rendered form. *)
Definition ui_reachable : State → Prop := reachable_by enabled.

(** A submission that [onSubmit] turns down, and a settlement that ends
    in the [catch] of [fetchFields]. *)
Definition isRejectedSubmit (a : Action) (st : State) : bool :=
  match a with
  | Submit => bool_decide (length (parseTeamIds (teamInput st)) = 0%nat)
  | _ => false
  end.
Definition loads (r : Settled Response.t) : bool :=
  match r with
  | Fulfilled response =>
      Response.ok response
      && match Response.json response with
         | Fulfilled _ => true
         | Rejected _ => false
         end
  | Rejected _ => false
  end.
Definition isFieldsFailure (a : Action) (st : State) : bool :=
  match a with
  | Settle k r =>
      match inflight st !! k with
      | Some AwaitFields => negb (loads r)
      | _ => false
      end
  | _ => false
  end.

(** Executions through the form in which every submission is accepted
    and the field catalogue loads. *)
Definition job_reachable : State → Prop :=
  reachable_by
    (λ a st, enabled a st && negb (isRejectedSubmit a st)
             && negb (isFieldsFailure a st)).

End HomePage.

(** ** Sample data *)

Definition sampleClock : Clock :=
  {| toLocaleTimeString := λ t, t; nowLocaleTimeString := js "12:00:00" |}.

Definition sampleResult : JobResult.t :=
  {| JobResult.teams :=
       [{| Team.club_id := js "6251"; Team.club_name := js "Club A" |}];
     JobResult.club_ids_csv := js "out/club_ids.csv";
     JobResult.generated_csvs := [js "out/6251.csv"];
     JobResult.augmented_csvs := [js "out/6251 augmented.csv"];
     JobResult.workbook := js "out/workbook.xlsx";
     JobResult.selected_fields := [js "id"; js "name"] |}.

(** JSON text for the samples: a string, a member, an object, an
    array, and a result payload. *)
Definition quoted (s : JSString) : JSString := [34] ++ s ++ [34].
Definition member (name : string) (value : JSString) : JSString :=
  quoted (js name) ++ js ":" ++ value.
Definition object (members : list JSString) : JSString :=
  js "{" ++ join (js ",") members ++ js "}".
Definition array (items : list JSString) : JSString :=
  js "[" ++ join (js ",") items ++ js "]".
Definition stringify (data : JobResult.t) : JSString :=
  object
    [member "teams"
       (array ((λ team,
                  object [member "club_id" (quoted (Team.club_id team));
                          member "club_name" (quoted (Team.club_name team))])
               <$> JobResult.teams data));
     member "club_ids_csv" (quoted (JobResult.club_ids_csv data));
     member "generated_csvs" (array (quoted <$> JobResult.generated_csvs data));
     member "augmented_csvs" (array (quoted <$> JobResult.augmented_csvs data));
     member "workbook" (quoted (JobResult.workbook data));
     member "selected_fields"
       (array (quoted <$> JobResult.selected_fields data))].

(** The four events of the wire format as they arrive, with their text
    and what it parses to. *)
Definition statusMessage (status : string) : MessageEvent.t :=
  {| MessageEvent.data :=
       object [member "type" (quoted (js "status"));
               member "status" (quoted (js status))];
     MessageEvent.parsed :=
       Some {| StreamEvent.type := js "status";
               StreamEvent.status := Some (js status);
               StreamEvent.message := None; StreamEvent.error := None;
               StreamEvent.timestamp := None; StreamEvent.data := None |} |}.
Definition logMessage (message : string) : MessageEvent.t :=
  {| MessageEvent.data :=
       object [member "type" (quoted (js "log"));
               member "message" (quoted (js message))];
     MessageEvent.parsed :=
       Some {| StreamEvent.type := js "log"; StreamEvent.status := None;
               StreamEvent.message := Some (js message);
               StreamEvent.error := None;
               StreamEvent.timestamp := None; StreamEvent.data := None |} |}.
Definition errorMessage (error : string) : MessageEvent.t :=
  {| MessageEvent.data :=
       object [member "type" (quoted (js "error"));
               member "error" (quoted (js error))];
     MessageEvent.parsed :=
       Some {| StreamEvent.type := js "error"; StreamEvent.status := None;
               StreamEvent.message := None;
               StreamEvent.error := Some (js error);
               StreamEvent.timestamp := None; StreamEvent.data := None |} |}.
Definition resultMessage (data : JobResult.t) : MessageEvent.t :=
  {| MessageEvent.data :=
       object [member "type" (quoted (js "result"));
               member "status" (quoted (js "completed"));
               member "data" (stringify data)];
     MessageEvent.parsed :=
       Some {| StreamEvent.type := js "result";
               StreamEvent.status := Some (js "completed");
               StreamEvent.message := None; StreamEvent.error := None;
               StreamEvent.timestamp := None; StreamEvent.data := Some data |} |}.

(** A payload that is no JSON. *)
Definition malformedMessage : MessageEvent.t :=
  {| MessageEvent.data := js "<html>502 Bad Gateway</html>";
     MessageEvent.parsed := None |}.

(** A [201] answer of the run endpoint, and a field catalogue. *)
Definition created (job_id : string) : Settled Response.t :=
  Fulfilled
    {| Response.ok := true;
       Response.json :=
         Fulfilled {| Payload.fields := None; Payload.default := None;
                      Payload.detail := None;
                      Payload.job_id := Some (js job_id) |} |}.
Definition catalogue : Settled Response.t :=
  Fulfilled
    {| Response.ok := true;
       Response.json :=
         Fulfilled
           {| Payload.fields :=
                Some [{| FieldOption.id := js "id"; FieldOption.label := js "ID" |};
                      {| FieldOption.id := js "name"; FieldOption.label := js "Name" |}];
              Payload.default := Some [js "id"; js "name"];
              Payload.detail := None; Payload.job_id := None |} |}.

(** A first job, up to its open stream (event source 0). *)
Definition firstJobStreaming : list Action :=
  [Settle 0 catalogue; TeamInputChange (js "6251, 27"); Submit;
   Settle 0 (created "abc123")].

(** A first job that completes, then a second one up to its open stream
    (event source 1). *)
Definition secondJobStreaming : list Action :=
  firstJobStreaming
  ++ [StreamMessage 0 sampleClock (statusMessage "running");
      StreamMessage 0 sampleClock (resultMessage sampleResult);
      Submit; Settle 0 (created "def456")].

(** ** What the page renders *)

(** [fieldLookup], source lines 77-83: a [Map] filled in the order of
    the catalogue, a later entry replacing an earlier one of the same
    id. *)
Definition fieldLookup (fieldOptions : list FieldOption.t)
    : gmap JSString JSString :=
  foldl (λ map field,
           <[FieldOption.id field := FieldOption.label field]> map)
        ∅ fieldOptions.

(** [renderFieldLabel], source lines 217-220. *)
Definition renderFieldLabel (fieldOptions : list FieldOption.t)
    (fieldId : JSString) : JSString :=
  default fieldId (fieldLookup fieldOptions !! fieldId).

(** [formattedLogs], source line 215, and whether the console shows its
    placeholder instead ([formattedLogs || ...], source lines 402-406). *)
Definition formattedLogs (st : State) : JSString := join [10] (logs st).
Definition showsPlaceholder (st : State) : bool :=
  negb (Boolean (formattedLogs st)).

(** The class of the status badge, source lines 236-241. *)
Definition statusClass (st : State) : JSString :=
  if strictEq (jobStatus st) (js "completed") then js "text-green-400"
  else if strictEq (jobStatus st) (js "failed") then js "text-red-400"
  else if strictEq (jobStatus st) (js "running") || isSubmitting st
       then js "text-yellow-400"
  else js "text-slate-400".

(** [s.split(sep)] for a separator of one code unit: the pieces between
    its occurrences, every occurrence counting. *)
Fixpoint splitOn (sep : N) (s : JSString) : list JSString :=
  match s with
  | [] => [[]]
  | c :: s' =>
      if c =? sep then [] :: splitOn sep s'
      else
        match splitOn sep s' with
        | piece :: pieces => (c :: piece) :: pieces
        | [] => [[c]]
        end
  end.

(** [path.split('/').pop() || path], the text of a download link
    (source lines 432, 443, 473). *)
Definition fileName (path : JSString) : JSString :=
  orElse (last (splitOn 47 path)) path.

(** The check boxes of the column list: one per catalogue entry, checked
    when its id is selected (source lines 332-347). *)
Definition checkboxes (st : State) : list (JSString * bool) :=
  (λ field, (FieldOption.id field,
             bool_decide (FieldOption.id field ∈ selectedFields st)))
  <$> fieldOptions st.

(** * Vocabulary of the properties *)

(** A string that does not start with a code unit [trim] strips. *)
Definition headKept (s : JSString) : Prop :=
  match s with [] => True | c :: _ => isTrimmable c = false end.

(** The pieces of a parse: not empty, free of separators, already
    trimmed. *)
Definition isToken (t : JSString) : Prop :=
  t ≠ [] ∧ Forall (λ c, isSeparator c = false) t ∧ trim t = t.

(** A Unicode scalar value: a code point that is not a surrogate. *)
Definition isScalar (cp : N) : Prop :=
  cp < 1114112 ∧ ¬ (55296 <= cp <= 57343).

(** The code units an encoded component is made of. *)
Definition isUriSafe (c : N) : bool := isUnreserved c || (c =? 37).

(** What the round trip says of one string. *)
Definition roundTrips (s : JSString) : Prop :=
  isWellFormed s = true →
  ∃ q ts, encodeURIComponent s = Some q ∧ tokens q = Some ts
          ∧ decodeTokens ts = Some s
          ∧ Forall (λ c, isUriSafe c = true) q.

(** The line a [log] event adds. *)
Definition logLine (clock : Clock) (event : StreamEvent.t) : JSString :=
  js "["
  ++ (if truthy (StreamEvent.timestamp event)
      then toLocaleTimeString clock (template (StreamEvent.timestamp event))
      else nowLocaleTimeString clock)
  ++ js "] " ++ template (StreamEvent.message event).

(** The five ways a payload is handled. *)
Inductive Tag (event : StreamEvent.t) : Prop :=
| TagStatus : StreamEvent.type event = js "status" → Tag event
| TagLog : StreamEvent.type event = js "log" → Tag event
| TagError : StreamEvent.type event = js "error" → Tag event
| TagResult : StreamEvent.type event = js "result" → Tag event
| TagOther :
    StreamEvent.type event ≠ js "status" →
    StreamEvent.type event ≠ js "log" →
    StreamEvent.type event ≠ js "error" →
    StreamEvent.type event ≠ js "result" → Tag event.

Definition noneOpen (st : State) : Prop := ∀ s, isOpen s st = false.

(** Every open event source is the one [eventSourceRef] holds. *)
Definition oneLive (st : State) : Prop :=
  ∀ s, isOpen s st = true → eventSourceRef st = Some s.

(** A run checked step by step. *)
Fixpoint allowedRun (env : option JSString) (allowed : Action → State → bool)
    (actions : list Action) (st : State) : bool :=
  match actions with
  | [] => true
  | a :: rest => allowed a st && allowedRun env allowed rest (dispatch env a st)
  end.

Definition isAwaitRun (a : Await) : bool :=
  match a with AwaitRun _ => true | AwaitFields => false end.

(** The [onSubmit] calls suspended at their [fetch]. *)
Definition runsPending (st : State) : nat :=
  length (filter isAwaitRun (inflight st)).

(** Where a page driven through its form stands: nothing going on;
    one run request pending; or one stream open.  [shown] is what the
    stage knows of the error shown next to a job in progress or next to
    a result. *)
Inductive Stage (shown : option JSString → Prop) (st : State) : Prop :=
| Quiet :
    runsPending st = 0%nat → noneOpen st →
    (is_Some (result st) →
     jobStatus st = js "completed" ∧ shown (error st)) →
    Stage shown st
| Awaiting :
    runsPending st = 1%nat → noneOpen st →
    isSubmitting st = true → result st = None → shown (error st) →
    Stage shown st
| Streaming s :
    runsPending st = 0%nat → isOpen s st = true → oneLive st →
    isSubmitting st = true → result st = None → shown (error st) →
    Stage shown st.

(** The two messages that do not come from a job: the validation of the
    form and the catalogue load. *)
Definition formError (e : option JSString) : Prop :=
  e = None
  ∨ e = Some (js "Provide at least one club ID.")
  ∨ e = Some (js "Unable to load workbook fields. Refresh and try again.").

Definition noError (e : option JSString) : Prop := e = None.

(** The catalogue fails to load on a fresh page. *)
Definition catalogueFailed : State :=
  dispatch None (Settle 0 (Rejected (ErrorObject (js "Failed to fetch"))))
    (mount None).

(** A job completes; the user blanks the text area and submits. *)
Definition rejectedAfterResult : list Action :=
  firstJobStreaming
  ++ [StreamMessage 0 sampleClock (statusMessage "running");
      StreamMessage 0 sampleClock (resultMessage sampleResult);
      TeamInputChange (js " , "); Submit].

(** A delivery the handler takes as a [log] event. *)
Definition isLogMessage (evt : MessageEvent.t) : bool :=
  Boolean (MessageEvent.data evt)
  && match MessageEvent.parsed evt with
     | Some event => strictEq (StreamEvent.type event) (js "log")
     | None => false
     end.

Definition deliver (s : nat) (delivery : Clock * MessageEvent.t) : Action :=
  StreamMessage s delivery.1 delivery.2.

(** The URL of the stream of a job. *)
Definition streamUrl (env : option JSString) (id : option JSString)
    : JSString :=
  API_BASE env ++ js "/api/jobs/" ++ template id ++ js "/stream".

(** A well-formed run request: to the run endpoint, with at least one
    id, every id a token, and a season that is absent or trimmed and not
    empty. *)
Definition isRunRequest (env : option JSString) (r : Request) : Prop :=
  match r with
  | GET _ => False
  | POST url team_ids season_id _ =>
      url = API_BASE env ++ js "/api/run"
      ∧ team_ids ≠ [] ∧ Forall isToken team_ids
      ∧ match season_id with
        | None => True
        | Some season => season ≠ [] ∧ trim season = season
        end
  end.

(** What the rendered page lets through: the form's own guard, and a
    toggle only for an id that has a check box. *)
Definition rendered (a : Action) (st : State) : bool :=
  enabled a st
  && match a with
     | ToggleField fieldId =>
         bool_decide (fieldId ∈ FieldOption.id <$> fieldOptions st)
     | _ => true
     end.

(** The same while the page stays mounted. *)
Definition mounted (a : Action) (st : State) : bool :=
  enabled a st && match a with Unmount => false | _ => true end.

(** ** Vocabulary of the further properties *)

(** What encoding a concatenation says of its first part. *)
Definition distributes (a : JSString) : Prop :=
  ∀ b, isWellFormed a = true →
       encodeURIComponent (a ++ b)
       = encodeURIComponent a ≫= λ qa, (qa ++.) <$> encodeURIComponent b.

(** What the length of an encoding says of one string. *)
Definition grows (s : JSString) : Prop :=
  ∀ q, encodeURIComponent s = Some q →
       (length s <= length q)%nat
       ∧ (length q = length s → Forall (λ c, isUnreserved c = true) s).

(** The form, the job id, the requests and the pending fetches are the
    same in both states, and no event source was added or reopened. *)
Definition streamFrame (st st' : State) : Prop :=
  teamInput st' = teamInput st ∧ seasonId st' = seasonId st
  ∧ fieldOptions st' = fieldOptions st
  ∧ defaultFields st' = defaultFields st
  ∧ selectedFields st' = selectedFields st
  ∧ jobId st' = jobId st
  ∧ network st' = network st ∧ inflight st' = inflight st
  ∧ length (sources st') = length (sources st)
  ∧ (∀ s, isOpen s st' = true → isOpen s st = true).

(** The request an accepted submission issues. *)
Definition runRequest (env : option JSString) (st : State) : Request :=
  POST (API_BASE env ++ js "/api/run") (parseTeamIds (teamInput st))
       (let season := trim (seasonId st) in
        if Boolean season then Some season else None)
       (selectedFields st).

(** What a callback adds to the requests issued. *)
Definition posted (env : option JSString) (a : Action) (st : State)
    : list Request :=
  match a with
  | Submit =>
      if bool_decide (length (parseTeamIds (teamInput st)) = 0%nat) then []
      else [runRequest env st]
  | _ => []
  end.

(** Every event source that is open listens to the job whose id the
    page shows. *)
Definition liveMatchesJob (env : option JSString) (st : State) : Prop :=
  ∀ s e, sources st !! s = Some e → EventSource.closed e = false →
         EventSource.url e = streamUrl env (jobId st).

(** A line that starts with an opening bracket. *)
Definition bracketed (line : JSString) : Prop := head line = Some 91.

Definition isSubmit (a : Action) : bool :=
  match a with Submit => true | _ => false end.

(** No run request pending and no stream open. *)
Definition idle (st : State) : Prop := runsPending st = 0%nat ∧ noneOpen st.

(** What [resetJobState] leaves of the job. *)
Definition starting (st : State) : Prop :=
  jobStatus st = js "Starting" ++ [8230] ∧ jobId st = None ∧ logs st = [].

(** Every selected id is an id of the catalogue or one of the defaults
    the catalogue came with. *)
Definition selectionKnown (st : State) : Prop :=
  ∀ id, id ∈ selectedFields st →
        id ∈ FieldOption.id <$> fieldOptions st ∨ id ∈ defaultFields st.

(** * Properties *)

(** ** Parsing the club ids *)

Example parseTeamIds_placeholder :
  parseTeamIds (js "6251" ++ [10] ++ js "27, 40")
  = [js "6251"; js "27"; js "40"].
Proof. vm_compute. reflexivity. Qed.

Example split_edges :
  split (js ",a,,b,") false = [[]; js "a"; js "b"; []]
  ∧ split [] false = [[]] ∧ split (js ",") false = [[]; []].
Proof. vm_compute. done. Qed.

Lemma dropWhile_all p s :
  Forall (λ c, p c = true) s → dropWhile p s = [].
Proof.
  induction 1 as [|c s Hc _ IH]; simpl; [done|]. by rewrite Hc.
Qed.

Lemma dropWhile_Forall (P : N → Prop) p s :
  Forall P s → Forall P (dropWhile p s).
Proof.
  induction 1 as [|c s Hc Hs IH]; simpl; [constructor|].
  destruct (p c); [done|]. by constructor.
Qed.

Lemma dropWhile_idemp p s : dropWhile p (dropWhile p s) = dropWhile p s.
Proof.
  induction s as [|c s IH]; simpl; [done|].
  destruct (p c) eqn:Hc; [done|]. simpl. by rewrite Hc.
Qed.

Lemma dropWhile_snoc p s c :
  dropWhile p (s ++ [c])
  = match dropWhile p s with
    | [] => if p c then [] else [c]
    | d :: r => d :: r ++ [c]
    end.
Proof.
  induction s as [|d s IH]; simpl; [done|].
  destruct (p d); [done|]. done.
Qed.

(** [trimEnd] read from the front of the string. *)
Lemma trimEnd_cons c s :
  trimEnd (c :: s)
  = match trimEnd s with
    | [] => if isTrimmable c then [] else [c]
    | d :: r => c :: d :: r
    end.
Proof.
  unfold trimEnd. rewrite reverse_cons, dropWhile_snoc.
  destruct (dropWhile isTrimmable (reverse s)) as [|d r] eqn:E.
  - rewrite reverse_nil. by destruct (isTrimmable c).
  - change (d :: r ++ [c]) with ((d :: r) ++ [c]). rewrite reverse_snoc.
    destruct (reverse (d :: r)) as [|d' r'] eqn:E'; [|done].
    apply (f_equal reverse) in E'. rewrite reverse_involutive in E'.
    discriminate.
Qed.

Lemma trimEnd_idemp s : trimEnd (trimEnd s) = trimEnd s.
Proof.
  unfold trimEnd. by rewrite reverse_involutive, dropWhile_idemp.
Qed.

Lemma trimEnd_Forall (P : N → Prop) s : Forall P s → Forall P (trimEnd s).
Proof.
  intros H. unfold trimEnd.
  apply Forall_reverse, dropWhile_Forall, Forall_reverse. done.
Qed.

Lemma trimStart_headKept s : headKept (trimStart s).
Proof.
  induction s as [|c s IH]; simpl; [done|].
  unfold trimStart in *. simpl. destruct (isTrimmable c) eqn:Hc; [done|].
  exact Hc.
Qed.

Lemma headKept_trimStart s : headKept s → trimStart s = s.
Proof. destruct s as [|c s]; simpl; [done|]. unfold trimStart. simpl. by intros ->. Qed.

Lemma headKept_trimEnd s : headKept s → headKept (trimEnd s).
Proof.
  destruct s as [|c s]; [done|]. simpl. intros Hc.
  rewrite trimEnd_cons. destruct (trimEnd s); [by rewrite Hc|done].
Qed.

Lemma trim_idemp s : trim (trim s) = trim s.
Proof.
  unfold trim.
  rewrite (headKept_trimStart (trimEnd (trimStart s))).
  - apply trimEnd_idemp.
  - apply headKept_trimEnd, trimStart_headKept.
Qed.

Lemma trim_Forall (P : N → Prop) s : Forall P s → Forall P (trim s).
Proof. intros H. by apply trimEnd_Forall, dropWhile_Forall. Qed.

Lemma trim_blank s : Forall (λ c, isTrimmable c = true) s → trim s = [].
Proof. intros H. unfold trim, trimStart. by rewrite dropWhile_all. Qed.

(** No piece contains a separator. *)
Lemma split_separator_free s b :
  Forall (Forall (λ c, isSeparator c = false)) (split s b).
Proof.
  revert b. induction s as [|c s IH]; intros b; simpl.
  - by repeat constructor.
  - destruct (isSeparator c) eqn:Hc.
    + destruct b; [apply IH|]. constructor; [constructor|apply IH].
    + specialize (IH false). destruct (split s false) as [|piece pieces].
      * by repeat constructor.
      * inversion_clear IH. constructor; [by constructor|done].
Qed.

(** The pieces of a string of blanks and separators are blank. *)
Lemma split_blank s b :
  Forall (λ c, isTrimmable c || isSeparator c) s →
  Forall (Forall (λ c, isTrimmable c = true)) (split s b).
Proof.
  intros H. revert b. induction H as [|c s Hc _ IH]; intros b; simpl.
  - by repeat constructor.
  - destruct (isSeparator c) eqn:Hs.
    + destruct b; [apply IH|]. constructor; [constructor|apply IH].
    + rewrite orb_false_r in Hc. apply Is_true_true in Hc.
      specialize (IH false). destruct (split s false) as [|piece pieces].
      * by repeat constructor.
      * inversion_clear IH. constructor; [by constructor|done].
Qed.

Lemma parseTeamIds_blank input :
  Forall (λ c, isTrimmable c || isSeparator c) input →
  parseTeamIds input = [].
Proof.
  intros H. unfold parseTeamIds.
  pose proof (split_blank input false H) as Hp.
  induction Hp as [|piece pieces Hb _ IH]; [done|].
  rewrite fmap_cons, filter_cons, (trim_blank _ Hb). simpl.
  destruct (decide (Is_true false)) as [[]|]. exact IH.
Qed.

Lemma parseTeamIds_tokens input : Forall isToken (parseTeamIds input).
Proof.
  apply Forall_forall. intros t Ht. unfold parseTeamIds in Ht.
  apply list_elem_of_filter in Ht as [Hne Ht].
  apply list_elem_of_fmap in Ht as (piece & -> & Hpiece).
  pose proof (split_separator_free input false) as Hfree.
  rewrite Forall_forall in Hfree. specialize (Hfree _ Hpiece).
  split; [|split].
  - intros E. rewrite E in Hne. exact Hne.
  - by apply trim_Forall.
  - apply trim_idemp.
Qed.

Lemma split_separator_free_piece t b :
  Forall (λ c, isSeparator c = false) t → split t b = [t].
Proof.
  intros H. revert b. induction H as [|c t Hc _ IH]; intros b; simpl; [done|].
  by rewrite Hc, IH.
Qed.

Lemma split_piece_comma t s b :
  t ≠ [] → Forall (λ c, isSeparator c = false) t →
  split (t ++ 44 :: s) b = t :: split s true.
Proof.
  intros Hne H. revert b Hne.
  induction H as [|c t Hc Ht IH]; intros b Hne; [done|].
  simpl. rewrite Hc. destruct t as [|d t].
  - simpl. done.
  - by rewrite (IH false).
Qed.

Lemma split_join ts b :
  ts ≠ [] → Forall isToken ts → split (join (js ",") ts) b = ts.
Proof.
  intros Hne H. revert b Hne.
  induction H as [|t ts [Ht [Hfree _]] Hts IH]; intros b Hne; [done|].
  clear Hne.
  destruct ts as [|t' ts].
  - simpl. by apply split_separator_free_piece.
  - change (join (js ",") (t :: t' :: ts))
      with (t ++ 44 :: join (js ",") (t' :: ts)).
    rewrite split_piece_comma by done. by rewrite IH.
Qed.

Lemma parseTeamIds_join ts :
  Forall isToken ts → parseTeamIds (join (js ",") ts) = ts.
Proof.
  intros H. unfold parseTeamIds. destruct (decide (ts = [])) as [->|Hne].
  - vm_compute. done.
  - rewrite split_join by done.
    induction H as [|t ts [Ht [_ Htrim]] _ IH]; [done|].
    rewrite fmap_cons, Htrim, filter_cons_True by by destruct t.
    f_equal. destruct ts as [|t' ts]; [done|]. by apply IH.
Qed.

(** C8. Parsing idempotence: joining the parsed ids with commas and
    parsing again gives the same sequence, for every input. *)
Theorem C8_parseTeamIds_idempotent (x : JSString) :
  parseTeamIds (join (js ",") (parseTeamIds x)) = parseTeamIds x.
Proof. apply parseTeamIds_join, parseTeamIds_tokens. Qed.

Example parseTeamIds_idempotent_example :
  let x := js " 6251 ,," ++ [10; 13; 10] ++ js "27 ,  40 b, " in
  parseTeamIds x = [js "6251"; js "27"; js "40 b"]
  ∧ join (js ",") (parseTeamIds x) = js "6251,27,40 b".
Proof. vm_compute. done. Qed.

(** ** Percent-encoding round trip *)

Ltac dlia := zify; Z.to_euclidean_division_equations; lia.

(** Settle the comparisons of the goal from the arithmetic at hand. *)
Ltac settle :=
  repeat first
    [ rewrite (proj2 (N.ltb_lt _ _)) by dlia
    | rewrite (proj2 (N.ltb_ge _ _)) by dlia
    | rewrite (proj2 (N.leb_le _ _)) by dlia
    | rewrite (proj2 (N.leb_gt _ _)) by dlia
    | rewrite (proj2 (N.eqb_eq _ _)) by dlia
    | rewrite (proj2 (N.eqb_neq _ _)) by dlia ].

Lemma unhex_hexDigit d : d < 16 → unhex (hexDigit d) = Some d.
Proof.
  intros Hd. unfold hexDigit, unhex.
  destruct (N.ltb_spec d 10); settle; simpl; f_equal; lia.
Qed.

Lemma tokens_percent b q :
  b < 256 → tokens (percent b ++ q) = (Oct b ::.) <$> tokens q.
Proof.
  intros Hb. unfold percent. simpl.
  rewrite !unhex_hexDigit by dlia. simpl.
  replace (16 * (b / 16) + b mod 16) with b by dlia. done.
Qed.

Lemma tokens_escapes bs q :
  Forall (λ b, b < 256) bs →
  tokens (mjoin (percent <$> bs) ++ q) = ((Oct <$> bs) ++.) <$> tokens q.
Proof.
  induction 1 as [|b bs Hb _ IH].
  - simpl. by destruct (tokens q).
  - change (mjoin (percent <$> b :: bs))
      with (percent b ++ mjoin (percent <$> bs)).
    rewrite <- app_assoc, tokens_percent, IH by done.
    by destruct (tokens q).
Qed.

Lemma utf8_octets cp : cp < 1114112 → Forall (λ b, b < 256) (utf8 cp).
Proof.
  intros Hcp. unfold utf8.
  destruct (N.ltb_spec cp 128); [|destruct (N.ltb_spec cp 2048);
    [|destruct (N.ltb_spec cp 65536)]]; repeat constructor; dlia.
Qed.

Lemma tokens_escape cp q :
  cp < 1114112 →
  tokens (escape cp ++ q) = ((Oct <$> utf8 cp) ++.) <$> tokens q.
Proof. intros H. apply tokens_escapes, utf8_octets, H. Qed.

Lemma decodeTokens_Oct b ts :
  decodeTokens (Oct b :: ts)
  = if b <? 128 then (b ::.) <$> decodeTokens ts
    else if (192 <=? b) && (b <=? 223) then
      match ts with
      | Oct b1 :: ts2 =>
          let cp := (b - 192) * 64 + (b1 - 128) in
          if isContinuation b1 && (128 <=? cp)
          then (utf16 cp ++.) <$> decodeTokens ts2 else None
      | _ => None
      end
    else if (224 <=? b) && (b <=? 239) then
      match ts with
      | Oct b1 :: Oct b2 :: ts3 =>
          let cp := (b - 224) * 4096 + (b1 - 128) * 64 + (b2 - 128) in
          if isContinuation b1 && isContinuation b2 && (2048 <=? cp)
             && negb ((55296 <=? cp) && (cp <=? 57343))
          then (utf16 cp ++.) <$> decodeTokens ts3 else None
      | _ => None
      end
    else if (240 <=? b) && (b <=? 247) then
      match ts with
      | Oct b1 :: Oct b2 :: Oct b3 :: ts4 =>
          let cp := (b - 240) * 262144 + (b1 - 128) * 4096
                    + (b2 - 128) * 64 + (b3 - 128) in
          if isContinuation b1 && isContinuation b2 && isContinuation b3
             && (65536 <=? cp) && (cp <=? 1114111)
          then (utf16 cp ++.) <$> decodeTokens ts4 else None
      | _ => None
      end
    else None.
Proof. reflexivity. Qed.

Lemma decodeTokens_utf8 cp ts :
  isScalar cp →
  decodeTokens ((Oct <$> utf8 cp) ++ ts) = (utf16 cp ++.) <$> decodeTokens ts.
Proof.
  intros [Hcp Hsur]. unfold utf8.
  destruct (N.ltb_spec cp 128);
    [|destruct (N.ltb_spec cp 2048); [|destruct (N.ltb_spec cp 65536)]];
    cbn [fmap list_fmap app]; rewrite decodeTokens_Oct;
    unfold isContinuation; cbv zeta.
  - settle. unfold utf16. settle. done.
  - settle. cbn [andb negb].
    replace ((192 + cp / 64 - 192) * 64 + (128 + cp mod 64 - 128))
      with cp by dlia.
    done.
  - settle. cbn [andb negb].
    replace ((224 + cp / 4096 - 224) * 4096
             + (128 + (cp / 64) mod 64 - 128) * 64 + (128 + cp mod 64 - 128))
      with cp by dlia.
    destruct (N.leb_spec 55296 cp); settle; done.
  - settle. cbn [andb negb].
    replace ((240 + cp / 262144 - 240) * 262144
             + (128 + (cp / 4096) mod 64 - 128) * 4096
             + (128 + (cp / 64) mod 64 - 128) * 64 + (128 + cp mod 64 - 128))
      with cp by dlia.
    settle. done.
Qed.

Lemma isUnreserved_ascii c : isUnreserved c = true → c < 128 ∧ c ≠ 37.
Proof.
  unfold isUnreserved. intros H.
  repeat (apply orb_prop in H as [H|H]);
    repeat (apply andb_prop in H as [? H]);
    repeat match goal with
      | H : (_ <=? _) = true |- _ => apply N.leb_le in H
      | H : (_ =? _) = true |- _ => apply N.eqb_eq in H
      end; lia.
Qed.

Lemma hexDigit_safe d : d < 16 → isUriSafe (hexDigit d) = true.
Proof.
  intros Hd. unfold hexDigit, isUriSafe, isUnreserved.
  destruct (N.ltb_spec d 10).
  - replace ((48 <=? 48 + d) && (48 + d <=? 57)) with true; [|settle; done].
    by rewrite !orb_true_r.
  - replace ((65 <=? 55 + d) && (55 + d <=? 90)) with true; [|settle; done].
    done.
Qed.

Lemma escapes_safe bs :
  Forall (λ b, b < 256) bs →
  Forall (λ c, isUriSafe c = true) (mjoin (percent <$> bs)).
Proof.
  induction 1 as [|b bs Hb _ IH]; [constructor|].
  change (mjoin (percent <$> b :: bs))
    with (percent b ++ mjoin (percent <$> bs)).
  apply Forall_app. split; [|done].
  unfold percent. repeat constructor; apply hexDigit_safe; dlia.
Qed.

Lemma utf16_bmp c : c < 65536 → utf16 c = [c].
Proof. intros H. unfold utf16. settle. done. Qed.

Lemma utf16_pair c d :
  isLeadSurrogate c = true → isTrailSurrogate d = true →
  utf16 (pairCodePoint c d) = [c; d] ∧ isScalar (pairCodePoint c d).
Proof.
  unfold isLeadSurrogate, isTrailSurrogate, pairCodePoint, utf16, isScalar.
  intros [Hc1 Hc2]%andb_prop [Hd1 Hd2]%andb_prop.
  apply N.leb_le in Hc1, Hc2, Hd1, Hd2.
  split; [|lia]. settle. f_equal; [dlia|f_equal; dlia].
Qed.

Lemma roundTrips_unreserved c rest :
  isUnreserved c = true → roundTrips rest → roundTrips (c :: rest).
Proof.
  intros Hc IH Hwf. destruct (isUnreserved_ascii c Hc) as [Hlt Hne].
  assert (Hrest : isWellFormed rest = true).
  { simpl in Hwf. destruct (isLeadSurrogate c) eqn:E.
    - unfold isLeadSurrogate in E. apply andb_prop in E as [E _].
      apply N.leb_le in E. lia.
    - by apply andb_prop in Hwf as [_ ?]. }
  destruct (IH Hrest) as (q & ts & Hq & Hts & Hdec & Hsafe).
  exists (c :: q), (Lit c :: ts). split; [|split; [|split]].
  - simpl. by rewrite Hc, Hq.
  - simpl. settle. by rewrite Hts.
  - simpl. by rewrite Hdec.
  - constructor; [|done]. unfold isUriSafe. by rewrite Hc.
Qed.

Lemma roundTrips_escape cp units rest :
  isScalar cp → utf16 cp = units →
  roundTrips rest → isWellFormed rest = true →
  ∃ q ts, (escape cp ++.) <$> encodeURIComponent rest = Some q
          ∧ tokens q = Some ts
          ∧ decodeTokens ts = Some (units ++ rest)
          ∧ Forall (λ c, isUriSafe c = true) q.
Proof.
  intros Hcp Hunits IH Hrest.
  destruct (IH Hrest) as (q & ts & Hq & Hts & Hdec & Hsafe).
  exists (escape cp ++ q), ((Oct <$> utf8 cp) ++ ts).
  destruct Hcp as [Hlt Hsur]. split; [|split; [|split]].
  - by rewrite Hq.
  - rewrite tokens_escape, Hts by done. done.
  - rewrite decodeTokens_utf8, Hdec, Hunits by done. done.
  - apply Forall_app. split; [|done]. by apply escapes_safe, utf8_octets.
Qed.

Lemma encodeURIComponent_roundTrips s :
  roundTrips s ∧ ∀ c, roundTrips (c :: s).
Proof.
  induction s as [|d s [IH0 IH1]].
  - assert (H0 : roundTrips []).
    { intros _. exists [], []. by repeat split. }
    split; [done|]. intros c.
    destruct (isUnreserved c) eqn:Hu; [by apply roundTrips_unreserved|].
    intros Hwf. simpl in Hwf. simpl. rewrite Hu.
    destruct (isLeadSurrogate c) eqn:Hl; [done|].
    apply andb_prop in Hwf as [[Hlt Htr]%andb_prop _].
    apply negb_true_iff in Htr. rewrite Htr. apply N.ltb_lt in Hlt.
    apply (roundTrips_escape c [c] []); [|by apply utf16_bmp|done..].
    unfold isLeadSurrogate, isTrailSurrogate in *. split; [lia|].
    intros [? ?]. destruct (N.leb_spec 56320 c).
    + rewrite (proj2 (N.leb_le c 57343)) in Htr by lia. done.
    + rewrite (proj2 (N.leb_le 55296 c)), (proj2 (N.leb_le c 56319)) in Hl
        by lia. done.
  - split; [apply IH1|]. intros c.
    destruct (isUnreserved c) eqn:Hu; [by apply roundTrips_unreserved|].
    intros Hwf. simpl in Hwf. cbn [encodeURIComponent]. rewrite Hu.
    destruct (isLeadSurrogate c) eqn:Hl.
    + apply andb_prop in Hwf as [Htr Hs]. rewrite Htr.
      destruct (utf16_pair c d Hl Htr) as [Hunits Hsc].
      apply (roundTrips_escape _ [c; d] s); done.
    + apply andb_prop in Hwf as [[Hlt Htr]%andb_prop Hs].
      apply negb_true_iff in Htr. rewrite Htr. apply N.ltb_lt in Hlt.
      apply (roundTrips_escape c [c] (d :: s)); [|by apply utf16_bmp|done..].
      unfold isLeadSurrogate, isTrailSurrogate in *. split; [lia|].
      intros [? ?]. destruct (N.leb_spec 56320 c).
      * rewrite (proj2 (N.leb_le c 57343)) in Htr by lia. done.
      * rewrite (proj2 (N.leb_le 55296 c)), (proj2 (N.leb_le c 56319)) in Hl
          by lia. done.
Qed.

Lemma encodeURIComponent_decodable s :
  isWellFormed s = true →
  ∃ q, encodeURIComponent s = Some q ∧ decodeURIComponent q = Some s
       ∧ Forall (λ c, isUriSafe c = true) q.
Proof.
  intros Hwf.
  destruct (proj1 (encodeURIComponent_roundTrips s) Hwf)
    as (q & ts & Hq & Hts & Hdec & Hsafe).
  exists q. unfold decodeURIComponent. rewrite Hts. by repeat split.
Qed.

Lemma encodeURIComponent_cons c rest :
  encodeURIComponent (c :: rest)
  = if isUnreserved c then (c ::.) <$> encodeURIComponent rest
    else if isLeadSurrogate c then
      match rest with
      | d :: rest' =>
          if isTrailSurrogate d
          then (escape (pairCodePoint c d) ++.) <$> encodeURIComponent rest'
          else None
      | [] => None
      end
    else if isTrailSurrogate c then None
    else (escape c ++.) <$> encodeURIComponent rest.
Proof. reflexivity. Qed.

Lemma isWellFormed_cons c rest :
  isWellFormed (c :: rest)
  = if isLeadSurrogate c then
      match rest with
      | d :: rest' => isTrailSurrogate d && isWellFormed rest'
      | [] => false
      end
    else (c <? 65536) && negb (isTrailSurrogate c) && isWellFormed rest.
Proof. reflexivity. Qed.

Lemma fmap_is_Some_inv {A B} (f : A → B) (o : option A) :
  is_Some (f <$> o) → is_Some o.
Proof. destruct o; [done|]. by intros [? [=]]. Qed.

(** An unpaired surrogate makes the encoder throw, wherever it stands:
    the encoder is defined exactly on the well-formed strings. *)
Lemma encodeURIComponent_defined s :
  (∀ c, c ∈ s → c < 65536) →
  is_Some (encodeURIComponent s) ↔ isWellFormed s = true.
Proof.
  intros Hunits. split.
  - revert Hunits.
    assert (H : (∀ (Hunits : ∀ c, c ∈ s → c < 65536),
                   is_Some (encodeURIComponent s) → isWellFormed s = true)
                ∧ ∀ c (Hunits : ∀ c', c' ∈ c :: s → c' < 65536),
                   is_Some (encodeURIComponent (c :: s)) →
                   isWellFormed (c :: s) = true).
    { induction s as [|d s [IH0 IH1]].
      - split; [done|]. intros c Hunits.
        assert (Hc : c < 65536) by (apply Hunits; left).
        rewrite encodeURIComponent_cons, isWellFormed_cons.
        destruct (isUnreserved c) eqn:Hu.
        + destruct (isUnreserved_ascii c Hu) as [Hlt _].
          unfold isLeadSurrogate, isTrailSurrogate. settle. done.
        + destruct (isLeadSurrogate c); [by intros [? [=]]|].
          destruct (isTrailSurrogate c); [by intros [? [=]]|].
          intros _. settle. done.
      - split; [apply IH1|]. intros c Hunits.
        assert (Hc : c < 65536) by (apply Hunits; left).
        assert (Hds : ∀ c', c' ∈ d :: s → c' < 65536).
        { intros c' Hc'. apply Hunits. by right. }
        assert (Hs : ∀ c', c' ∈ s → c' < 65536).
        { intros c' Hc'. apply Hds. by right. }
        rewrite encodeURIComponent_cons, isWellFormed_cons.
        destruct (isUnreserved c) eqn:Hu.
        + destruct (isUnreserved_ascii c Hu) as [Hlt _].
          replace (isLeadSurrogate c) with false
            by (unfold isLeadSurrogate; settle; done).
          replace (isTrailSurrogate c) with false
            by (unfold isTrailSurrogate; settle; done).
          settle. cbn [andb negb]. intros Hsome%fmap_is_Some_inv.
          by apply IH1.
        + destruct (isLeadSurrogate c).
          * destruct (isTrailSurrogate d); [|by intros [? [=]]].
            intros Hsome%fmap_is_Some_inv. by apply IH0.
          * destruct (isTrailSurrogate c); [by intros [? [=]]|].
            intros Hsome%fmap_is_Some_inv. settle.
            cbn [andb negb]. by apply IH1. }
    intros Hunits. by apply H.
  - intros Hwf. destruct (encodeURIComponent_decodable s Hwf) as (q & -> & _).
    done.
Qed.

(** ** Download links *)

Example downloadUrl_example :
  downloadUrl None (js "a/b c.csv")
  = Some (js "http://localhost:8080/download?path=a%2Fb%20c.csv")
  ∧ decodeURIComponent (js "a%2Fb%20c.csv") = Some (js "a/b c.csv")
  ∧ encodeURIComponent (js " ") = Some (js "%20").
Proof. vm_compute. done. Qed.

(** C10, as the specification states it, fails: a path holding an unpaired
    surrogate (one 16-bit code unit, U+D800) is a string, and
    [downloadUrl] throws on it instead of giving a URL. *)
Lemma C10_unpaired_surrogate_counterexample :
  Forall (λ c, c < 65536) [55296]
  ∧ downloadUrl None [55296] = None
  ∧ ¬ ∃ q, downloadUrl None [55296]
           = Some (API_BASE None ++ js "/download?path=" ++ q).
Proof.
  split; [repeat constructor|]. split; [reflexivity|].
  intros [q Hq]. vm_compute in Hq. discriminate.
Qed.

(** C10 (amended). For every well-formed path [p] (16-bit code units,
    every surrogate paired) [downloadUrl p] is the base URL followed by
    ["/download?path="] and the percent-encoding [q] of [p]; [q] is made
    of unreserved characters and [%XX] escapes only (so a space is
    [%20]), and URL-decoding [q] gives back exactly [p]. *)
Theorem C10_downloadUrl_round_trip (env : option JSString) (p : JSString) :
  isWellFormed p = true →
  ∃ q, downloadUrl env p = Some (API_BASE env ++ js "/download?path=" ++ q)
       ∧ encodeURIComponent p = Some q
       ∧ Forall (λ c, isUriSafe c = true) q
       ∧ decodeURIComponent q = Some p.
Proof.
  intros Hwf.
  destruct (encodeURIComponent_decodable p Hwf) as (q & Hq & Hdec & Hsafe).
  exists q. unfold downloadUrl. rewrite Hq. by repeat split.
Qed.

Lemma C10_downloadUrl_witness :
  isWellFormed (js "a/b c.csv") = true
  ∧ ∃ q, downloadUrl None (js "a/b c.csv")
         = Some (API_BASE None ++ js "/download?path=" ++ q)
         ∧ encodeURIComponent (js "a/b c.csv") = Some q
         ∧ Forall (λ c, isUriSafe c = true) q
         ∧ decodeURIComponent q = Some (js "a/b c.csv").
Proof.
  split; [reflexivity|].
  apply (C10_downloadUrl_round_trip None (js "a/b c.csv")). reflexivity.
Defined.

(** [downloadUrl] gives a URL exactly for the well-formed paths. *)
Lemma downloadUrl_defined env p :
  (∀ c, c ∈ p → c < 65536) →
  is_Some (downloadUrl env p) ↔ isWellFormed p = true.
Proof.
  intros Hunits. rewrite <- (encodeURIComponent_defined p Hunits).
  unfold downloadUrl. destruct (encodeURIComponent p); simpl; [|done].
  split; eauto.
Qed.

(** ** Submitting the form *)

(** C7. Empty-input rejection: when the text holds nothing but white
    space, commas and newlines, the parsed id list is empty and
    [onSubmit] only sets the validation message: no request is issued,
    no fetch is left pending, no event source is created and the rest
    of the state is as before. *)
Theorem C7_blank_input_rejected (env : option JSString) (st : State) :
  Forall (λ c, isTrimmable c || isSeparator c) (teamInput st) →
  parseTeamIds (teamInput st) = []
  ∧ dispatch env Submit st
    = setError (Some (js "Provide at least one club ID.")) st
  ∧ network (dispatch env Submit st) = network st
  ∧ inflight (dispatch env Submit st) = inflight st
  ∧ sources (dispatch env Submit st) = sources st
  ∧ jobStatus (dispatch env Submit st) = jobStatus st.
Proof.
  intros H. pose proof (parseTeamIds_blank _ H) as Hp.
  split; [done|]. cbn [dispatch]. unfold onSubmit. rewrite Hp. simpl.
  by repeat split.
Qed.

Lemma C7_blank_input_witness :
  let st := setTeamInput (js "  , ," ++ [10; 9; 13; 10; 160]) (mount None) in
  Forall (λ c, isTrimmable c || isSeparator c) (teamInput st)
  ∧ (parseTeamIds (teamInput st) = []
     ∧ dispatch None Submit st
       = setError (Some (js "Provide at least one club ID.")) st
     ∧ network (dispatch None Submit st) = network st
     ∧ inflight (dispatch None Submit st) = inflight st
     ∧ sources (dispatch None Submit st) = sources st
     ∧ jobStatus (dispatch None Submit st) = jobStatus st).
Proof.
  intros st.
  assert (H : Forall (λ c, isTrimmable c || isSeparator c) (teamInput st)).
  { repeat constructor. }
  split; [exact H|]. exact (C7_blank_input_rejected None st H).
Defined.

(** ** The stream handler, tag by tag *)

Lemma handleStreamEvent_status clock event st :
  StreamEvent.type event = js "status" →
  handleStreamEvent clock event st
  = setJobStatus (default (js "running") (StreamEvent.status event)) st.
Proof. intros H. unfold handleStreamEvent. rewrite H. reflexivity. Qed.

Lemma handleStreamEvent_log clock event st :
  StreamEvent.type event = js "log" →
  handleStreamEvent clock event st = appendLog (logLine clock event) st.
Proof. intros H. unfold handleStreamEvent. rewrite H. reflexivity. Qed.

Lemma handleStreamEvent_error clock event st :
  StreamEvent.type event = js "error" →
  handleStreamEvent clock event st
  = setIsSubmitting false
      (assignEventSourceRef None
         (closeCurrent
            (setError
               (Some (orElse (StreamEvent.error event) (js "Workflow failed")))
               (setJobStatus (js "failed") st)))).
Proof. intros H. unfold handleStreamEvent. rewrite H. reflexivity. Qed.

Lemma handleStreamEvent_result clock event st :
  StreamEvent.type event = js "result" →
  handleStreamEvent clock event st
  = setIsSubmitting false
      (assignEventSourceRef None
         (closeCurrent
            (setResult (StreamEvent.data event)
               (setJobStatus (js "completed") st)))).
Proof. intros H. unfold handleStreamEvent. rewrite H. reflexivity. Qed.

Lemma handleStreamEvent_other clock event st :
  StreamEvent.type event ≠ js "status" →
  StreamEvent.type event ≠ js "log" →
  StreamEvent.type event ≠ js "error" →
  StreamEvent.type event ≠ js "result" →
  handleStreamEvent clock event st = st.
Proof.
  intros H1 H2 H3 H4. unfold handleStreamEvent, strictEq.
  by rewrite !bool_decide_eq_false_2 by done.
Qed.

Lemma tag event : Tag event.
Proof.
  destruct (decide (StreamEvent.type event = js "status")); [by apply TagStatus|].
  destruct (decide (StreamEvent.type event = js "log")); [by apply TagLog|].
  destruct (decide (StreamEvent.type event = js "error")); [by apply TagError|].
  destruct (decide (StreamEvent.type event = js "result")); [by apply TagResult|].
  by apply TagOther.
Qed.

(** ** Event sources *)

Lemma isOpen_frame s st st' :
  sources st' = sources st → isOpen s st' = isOpen s st.
Proof. unfold isOpen. by intros ->. Qed.

Lemma isOpen_close s r st :
  isOpen s (close r st) = negb (bool_decide (s = r)) && isOpen s st.
Proof.
  unfold isOpen, close. cbn [sources withSources].
  case_bool_decide as E.
  - subst r. rewrite list_lookup_alter_eq. by destruct (sources st !! s).
  - by rewrite list_lookup_alter_ne.
Qed.

Lemma noneOpen_oneLive st : noneOpen st → oneLive st.
Proof. intros H s Hs. by rewrite H in Hs. Qed.

Lemma oneLive_unique st s s' :
  oneLive st → isOpen s st = true → isOpen s' st = true → s = s'.
Proof. intros H Hs Hs'. apply H in Hs, Hs'. congruence. Qed.

Lemma closeCurrent_noneOpen st : oneLive st → noneOpen (closeCurrent st).
Proof.
  intros H s. unfold closeCurrent.
  destruct (eventSourceRef st) as [r|] eqn:Hr.
  - rewrite isOpen_close. case_bool_decide as E; [done|]. simpl.
    destruct (isOpen s st) eqn:Hs; [|done].
    apply H in Hs. congruence.
  - destruct (isOpen s st) eqn:Hs; [|done]. apply H in Hs. congruence.
Qed.

Lemma closeCurrent_fields st :
  inflight (closeCurrent st) = inflight st
  ∧ eventSourceRef (closeCurrent st) = eventSourceRef st
  ∧ isSubmitting (closeCurrent st) = isSubmitting st
  ∧ result (closeCurrent st) = result st
  ∧ error (closeCurrent st) = error st
  ∧ jobStatus (closeCurrent st) = jobStatus st
  ∧ logs (closeCurrent st) = logs st
  ∧ length (sources (closeCurrent st)) = length (sources st).
Proof.
  unfold closeCurrent, close.
  destruct (eventSourceRef st) eqn:E; repeat split; try done.
  cbn. apply length_alter.
Qed.

Lemma startStream_isOpen env result id st s :
  oneLive st →
  isOpen s (startStream env result id st) = bool_decide (s = length (sources st)).
Proof.
  intros H. unfold startStream, isOpen.
  cbn [sources withSources assignEventSourceRef].
  destruct (closeCurrent_fields st) as (_ & _ & _ & _ & _ & _ & _ & Hlen).
  pose proof (closeCurrent_noneOpen st H s) as Hs. unfold isOpen in Hs.
  case_bool_decide as E.
  - subst s. rewrite <- Hlen. by rewrite list_lookup_middle.
  - destruct (decide (s < length (sources (closeCurrent st)))%nat).
    + by rewrite lookup_app_l.
    + rewrite lookup_ge_None_2; [done|]. rewrite length_app. simpl. lia.
Qed.

Lemma startStream_oneLive env result id st :
  oneLive st → oneLive (startStream env result id st).
Proof.
  intros H s. rewrite startStream_isOpen by done.
  intros ->%bool_decide_eq_true. unfold startStream. cbn.
  destruct (closeCurrent_fields st) as (_ & _ & _ & _ & _ & _ & _ & ->). done.
Qed.

Lemma oneLive_frame st st' :
  sources st' = sources st → eventSourceRef st' = eventSourceRef st →
  oneLive st → oneLive st'.
Proof.
  intros Hs Hr H s. rewrite (isOpen_frame s st st' Hs), Hr. apply H.
Qed.

Lemma noneOpen_frame st st' :
  sources st' = sources st → noneOpen st → noneOpen st'.
Proof. intros Hs H s. rewrite (isOpen_frame s st st' Hs). apply H. Qed.

Lemma onerror_noneOpen s st :
  oneLive st → isOpen s st = true → noneOpen (onerror s st).
Proof.
  intros H Hs s'.
  assert (E : isOpen s' (onerror s st) = isOpen s' (close s st)).
  { apply isOpen_frame. unfold onerror.
    by destruct (sources st !! s ≫= EventSource.result). }
  rewrite E, isOpen_close. case_bool_decide as Hne; [done|]. simpl.
  destruct (isOpen s' st) eqn:Hs'; [|done].
  destruct Hne. by apply (oneLive_unique st).
Qed.

Lemma resetJobState_noneOpen st : oneLive st → noneOpen (resetJobState st).
Proof.
  intros H. apply (noneOpen_frame (closeCurrent st)); [done|].
  by apply closeCurrent_noneOpen.
Qed.

Lemma handleStreamEvent_oneLive clock event st :
  oneLive st → oneLive (handleStreamEvent clock event st).
Proof.
  intros H. destruct (tag event) as [E|E|E|E|E1 E2 E3 E4].
  - rewrite handleStreamEvent_status by done. by apply (oneLive_frame st).
  - rewrite handleStreamEvent_log by done. by apply (oneLive_frame st).
  - rewrite handleStreamEvent_error by done.
    apply noneOpen_oneLive. eapply noneOpen_frame; [|apply closeCurrent_noneOpen].
    + reflexivity.
    + by eapply oneLive_frame; [| |exact H].
  - rewrite handleStreamEvent_result by done.
    apply noneOpen_oneLive. eapply noneOpen_frame; [|apply closeCurrent_noneOpen].
    + reflexivity.
    + by eapply oneLive_frame; [| |exact H].
  - by rewrite handleStreamEvent_other.
Qed.

Lemma onSubmit_resume_oneLive env result r st :
  oneLive st → oneLive (onSubmit_resume env result r st).
Proof.
  intros H. unfold onSubmit_resume.
  destruct r as [response|err]; [|by apply (oneLive_frame st)].
  destruct (Response.ok response); simpl.
  - destruct (Response.json response) as [payload|err];
      [|by apply (oneLive_frame st)].
    apply startStream_oneLive. by apply (oneLive_frame st).
  - by apply (oneLive_frame st).
Qed.

Lemma fetchFields_resume_frame r st :
  let st' := fetchFields_resume r st in
  sources st' = sources st ∧ eventSourceRef st' = eventSourceRef st
  ∧ inflight st' = inflight st ∧ isSubmitting st' = isSubmitting st
  ∧ result st' = result st ∧ jobStatus st' = jobStatus st
  ∧ teamInput st' = teamInput st.
Proof.
  unfold fetchFields_resume. destruct r as [response|err]; [|done].
  destruct (Response.ok response); [|done]. simpl.
  by destruct (Response.json response).
Qed.

(** Every callback keeps the open event sources under [eventSourceRef]. *)
Lemma dispatch_oneLive env a st : oneLive st → oneLive (dispatch env a st).
Proof.
  intros H. destruct a as [k r|v|v|f| | | | |s clock evt|s|]; cbn [dispatch];
    try by apply (oneLive_frame st).
  - destruct (inflight st !! k) as [[|result]|]; [| |done].
    + destruct (fetchFields_resume_frame r
                  (withInflight (delete k (inflight st)) st))
        as (Hs & Hr & _).
      by apply (oneLive_frame st).
    + apply onSubmit_resume_oneLive. by apply (oneLive_frame st).
  - unfold onSubmit. case_bool_decide; [by apply (oneLive_frame st)|].
    apply noneOpen_oneLive.
    apply (noneOpen_frame (resetJobState st)); [done|].
    by apply resetJobState_noneOpen.
  - destruct (isOpen s st); [|done]. unfold onmessage.
    destruct (Boolean (MessageEvent.data evt)); [|done]. simpl.
    destruct (MessageEvent.parsed evt) as [payload|].
    + by apply handleStreamEvent_oneLive.
    + by apply (oneLive_frame st).
  - destruct (isOpen s st) eqn:Hs; [|done].
    by apply noneOpen_oneLive, onerror_noneOpen.
  - by apply noneOpen_oneLive, closeCurrent_noneOpen.
Qed.

Lemma mount_noneOpen env : noneOpen (mount env).
Proof. intros s. unfold isOpen. cbn [sources mount]. by rewrite lookup_nil. Qed.

Lemma reachable_by_weaken env (allowed allowed' : Action → State → bool) st :
  (∀ a st, allowed a st = true → allowed' a st = true) →
  reachable_by env allowed st → reachable_by env allowed' st.
Proof.
  intros Hw. induction 1 as [|st a _ IH Ha]; [constructor|].
  constructor; [done|]. by apply Hw.
Qed.

Lemma ui_reachable_reachable env st : ui_reachable env st → reachable env st.
Proof. by apply reachable_by_weaken. Qed.

Lemma job_reachable_ui_reachable env st :
  job_reachable env st → ui_reachable env st.
Proof.
  apply reachable_by_weaken. intros a st'.
  by intros [[H _]%andb_prop _]%andb_prop.
Qed.

Lemma reachable_oneLive env st : reachable env st → oneLive st.
Proof.
  induction 1 as [|st a _ IH _].
  - apply noneOpen_oneLive, mount_noneOpen.
  - by apply dispatch_oneLive.
Qed.

Lemma reachable_by_run env allowed actions st :
  reachable_by env allowed st → allowedRun env allowed actions st = true →
  reachable_by env allowed (run env actions st).
Proof.
  revert st. induction actions as [|a rest IH]; intros st Hst Hrun; [done|].
  simpl in Hrun. apply andb_prop in Hrun as [Ha Hrest].
  unfold run. simpl. apply IH; [|done]. by constructor.
Qed.

(** ** Sample executions *)

Lemma firstJobStreaming_reachable :
  job_reachable None (run None firstJobStreaming (mount None)).
Proof. apply reachable_by_run; [constructor|]. vm_compute. reflexivity. Qed.

Lemma secondJobStreaming_reachable :
  job_reachable None (run None secondJobStreaming (mount None)).
Proof. apply reachable_by_run; [constructor|]. vm_compute. reflexivity. Qed.

(** ** Terminal events *)

Lemma stream_action_closed env a st :
  isStreamAction a = true → noneOpen st → dispatch env a st = st.
Proof.
  intros Ha H. destruct a; try done; cbn [dispatch]; by rewrite H.
Qed.

Lemma stream_actions_closed env later st :
  Forall (λ a, isStreamAction a = true) later → noneOpen st →
  run env later st = st.
Proof.
  intros Hl H. induction Hl as [|a later Ha _ IH]; [done|].
  unfold run. simpl. rewrite stream_action_closed by done. apply IH.
Qed.

Lemma terminal_message_noneOpen env st s clock evt event :
  oneLive st → isOpen s st = true →
  MessageEvent.data evt ≠ [] → MessageEvent.parsed evt = Some event →
  StreamEvent.type event = js "result" ∨ StreamEvent.type event = js "error" →
  noneOpen (dispatch env (StreamMessage s clock evt) st).
Proof.
  intros H Hs Hdata Hparsed Htag. cbn [dispatch]. rewrite Hs.
  unfold onmessage. rewrite Hparsed.
  destruct (MessageEvent.data evt); [done|]. simpl.
  destruct Htag as [E|E].
  - rewrite handleStreamEvent_result by done.
    eapply noneOpen_frame; [|apply closeCurrent_noneOpen].
    + reflexivity.
    + by eapply oneLive_frame; [| |exact H].
  - rewrite handleStreamEvent_error by done.
    eapply noneOpen_frame; [|apply closeCurrent_noneOpen].
    + reflexivity.
    + by eapply oneLive_frame; [| |exact H].
Qed.

(** C5. Terminal exclusivity: once a [result] or an [error] event has
    been applied, the channel is closed, and whatever the stream
    delivers afterwards (messages or transport errors, on any event
    source) changes neither the status, nor the result, nor the error -
    nor anything else. *)
Theorem C5_terminal_exclusivity (env : option JSString) (st : State)
    (s : nat) (clock : Clock) (evt : MessageEvent.t) (event : StreamEvent.t)
    (later : list Action) :
  reachable env st → isOpen s st = true →
  MessageEvent.data evt ≠ [] → MessageEvent.parsed evt = Some event →
  StreamEvent.type event = js "result" ∨ StreamEvent.type event = js "error" →
  Forall (λ a, isStreamAction a = true) later →
  let st1 := dispatch env (StreamMessage s clock evt) st in
  let st2 := run env later st1 in
  jobStatus st2 = jobStatus st1 ∧ result st2 = result st1
  ∧ error st2 = error st1 ∧ st2 = st1.
Proof.
  intros Hreach Hs Hdata Hparsed Htag Hlater st1 st2.
  assert (E : st2 = st1).
  { apply stream_actions_closed; [done|].
    apply (terminal_message_noneOpen env st s clock evt event); try done.
    by apply (reachable_oneLive env). }
  by rewrite E.
Qed.

Lemma C5_terminal_exclusivity_witness :
  let st := run None firstJobStreaming (mount None) in
  let evt := resultMessage sampleResult in
  let later :=
    [StreamMessage 0 sampleClock (statusMessage "running");
     StreamMessage 0 sampleClock (errorMessage "scrape failed");
     StreamError 0; StreamMessage 0 sampleClock (logMessage "late")] in
  reachable None st ∧ isOpen 0 st = true
  ∧ MessageEvent.data evt ≠ []
  ∧ Forall (λ a, isStreamAction a = true) later
  ∧ (let st1 := dispatch None (StreamMessage 0 sampleClock evt) st in
     let st2 := run None later st1 in
     jobStatus st2 = jobStatus st1 ∧ result st2 = result st1
     ∧ error st2 = error st1 ∧ st2 = st1).
Proof.
  intros st evt later.
  assert (H : reachable None st).
  { apply ui_reachable_reachable, job_reachable_ui_reachable.
    exact firstJobStreaming_reachable. }
  assert (Hs : isOpen 0 st = true) by reflexivity.
  assert (Hdata : MessageEvent.data evt ≠ []) by discriminate.
  assert (Hlater : Forall (λ a, isStreamAction a = true) later).
  { repeat constructor. }
  split; [exact H|]. split; [exact Hs|]. split; [exact Hdata|].
  split; [exact Hlater|].
  exact (C5_terminal_exclusivity None st 0 sampleClock evt _ later
           H Hs Hdata eq_refl (or_introl eq_refl) Hlater).
Defined.

Example terminal_events_applied :
  let st := run None firstJobStreaming (mount None) in
  let done_ := dispatch None (StreamMessage 0 sampleClock (resultMessage sampleResult)) st in
  let failed := dispatch None (StreamMessage 0 sampleClock (errorMessage "scrape failed")) st in
  (jobStatus done_ = js "completed" ∧ result done_ = Some sampleResult
   ∧ error done_ = None ∧ isOpen 0 done_ = false)
  ∧ (jobStatus failed = js "failed" ∧ result failed = None
     ∧ error failed = Some (js "scrape failed") ∧ isOpen 0 failed = false).
Proof. vm_compute. done. Qed.

(** The two scenarios of a job that ends: [status], two [log] lines and
    the [result]; [status] and an [error]. *)
Example happy_path :
  let st :=
    run None
      (firstJobStreaming
       ++ [StreamMessage 0 sampleClock (statusMessage "running");
           StreamMessage 0 sampleClock (logMessage "fetching 6251");
           StreamMessage 0 sampleClock (logMessage "fetching 27");
           StreamMessage 0 sampleClock (resultMessage sampleResult)])
      (mount None) in
  jobId st = Some (js "abc123") ∧ jobStatus st = js "completed"
  ∧ logs st = [js "[12:00:00] fetching 6251"; js "[12:00:00] fetching 27"]
  ∧ error st = None ∧ result st = Some sampleResult
  ∧ isOpen 0 st = false ∧ eventSourceRef st = None
  ∧ isSubmitting st = false.
Proof. by vm_compute. Qed.

Example server_failure :
  let st :=
    run None
      (firstJobStreaming
       ++ [StreamMessage 0 sampleClock (statusMessage "running");
           StreamMessage 0 sampleClock (errorMessage "scrape failed")])
      (mount None) in
  jobStatus st = js "failed" ∧ error st = Some (js "scrape failed")
  ∧ result st = None ∧ isOpen 0 st = false ∧ eventSourceRef st = None.
Proof. by vm_compute. Qed.

Example submission_request :
  network (run None firstJobStreaming (mount None))
  = [GET (js "http://localhost:8080/api/fields");
     POST (js "http://localhost:8080/api/run") [js "6251"; js "27"] None
          [js "id"; js "name"]].
Proof. by vm_compute. Qed.

(** ** Malformed messages *)

(** C9. Malformed-message safety: a payload that does not parse,
    delivered between two [log] events, leaves every field of the job
    state as it was (only the console gets a line), the stream stays
    open, and both log lines are appended in order. *)
Theorem C9_malformed_message_ignored (env : option JSString) (st : State)
    (s : nat) (clock1 clock2 clock3 : Clock)
    (first bad second : MessageEvent.t) (event1 event2 : StreamEvent.t) :
  isOpen s st = true →
  MessageEvent.data first ≠ [] → MessageEvent.parsed first = Some event1 →
  StreamEvent.type event1 = js "log" →
  MessageEvent.parsed bad = None →
  MessageEvent.data second ≠ [] → MessageEvent.parsed second = Some event2 →
  StreamEvent.type event2 = js "log" →
  let st1 := dispatch env (StreamMessage s clock1 first) st in
  let st2 := dispatch env (StreamMessage s clock2 bad) st1 in
  let st3 := dispatch env (StreamMessage s clock3 second) st2 in
  logs st3 = logs st ++ [logLine clock1 event1; logLine clock3 event2]
  ∧ (jobId st2 = jobId st1 ∧ jobStatus st2 = jobStatus st1
     ∧ logs st2 = logs st1 ∧ error st2 = error st1 ∧ result st2 = result st1)
  ∧ st2 = withConsole (console st2) st1
  ∧ isOpen s st2 = true ∧ isOpen s st3 = true
  ∧ (jobStatus st3 = jobStatus st ∧ error st3 = error st
     ∧ result st3 = result st).
Proof.
  intros Hs Hd1 Hp1 Ht1 Hbad Hd2 Hp2 Ht2 st1 st2 st3.
  assert (E1 : st1 = appendLog (logLine clock1 event1) st).
  { unfold st1. cbn [dispatch]. rewrite Hs. unfold onmessage. rewrite Hp1.
    destruct (MessageEvent.data first); [done|]. simpl.
    by apply handleStreamEvent_log. }
  assert (Hs1 : isOpen s st1 = true) by (by rewrite E1).
  assert (E2 : st2 = st1 ∨ st2 = withConsole (console st1 ++ [ConsoleParseFailure]) st1).
  { unfold st2. cbn [dispatch]. rewrite Hs1. unfold onmessage. rewrite Hbad.
    destruct (Boolean (MessageEvent.data bad)); simpl; eauto. }
  assert (Hs2 : isOpen s st2 = true) by (by destruct E2 as [-> | ->]).
  assert (E3 : st3 = appendLog (logLine clock3 event2) st2).
  { unfold st3. cbn [dispatch]. rewrite Hs2. unfold onmessage. rewrite Hp2.
    destruct (MessageEvent.data second); [done|]. simpl.
    by apply handleStreamEvent_log. }
  assert (Hs3 : isOpen s st3 = true) by (by rewrite E3).
  split; [|split; [|split; [|split; [|split]]]]; try done.
  - rewrite E3. cbn [logs appendLog setLogs].
    replace (logs st2) with (logs st1) by (by destruct E2 as [-> | ->]).
    rewrite E1. cbn [logs appendLog setLogs]. by rewrite <- app_assoc.
  - by destruct E2 as [-> | ->].
  - destruct E2 as [-> | ->]; [by destruct st1|done].
  - rewrite E3. destruct E2 as [-> | ->]; by rewrite E1.
Qed.

Lemma C9_malformed_message_witness :
  let st := run None firstJobStreaming (mount None) in
  let first := logMessage "fetching 6251" in
  let second := logMessage "fetching 27" in
  isOpen 0 st = true
  ∧ MessageEvent.data first ≠ [] ∧ MessageEvent.data second ≠ []
  ∧ MessageEvent.parsed malformedMessage = None
  ∧ (let st1 := dispatch None (StreamMessage 0 sampleClock first) st in
     let st2 := dispatch None (StreamMessage 0 sampleClock malformedMessage) st1 in
     let st3 := dispatch None (StreamMessage 0 sampleClock second) st2 in
     logs st3 = logs st ++ [js "[12:00:00] fetching 6251";
                            js "[12:00:00] fetching 27"]
     ∧ (jobId st2 = jobId st1 ∧ jobStatus st2 = jobStatus st1
        ∧ logs st2 = logs st1 ∧ error st2 = error st1
        ∧ result st2 = result st1)
     ∧ st2 = withConsole (console st2) st1
     ∧ isOpen 0 st2 = true ∧ isOpen 0 st3 = true
     ∧ (jobStatus st3 = jobStatus st ∧ error st3 = error st
        ∧ result st3 = result st)).
Proof.
  intros st first second.
  assert (Hs : isOpen 0 st = true) by reflexivity.
  assert (Hd1 : MessageEvent.data first ≠ []) by discriminate.
  assert (Hd2 : MessageEvent.data second ≠ []) by discriminate.
  split; [exact Hs|]. split; [exact Hd1|]. split; [exact Hd2|].
  split; [reflexivity|].
  exact (C9_malformed_message_ignored None st 0 sampleClock sampleClock
           sampleClock first malformedMessage second _ _
           Hs Hd1 eq_refl eq_refl eq_refl Hd2 eq_refl eq_refl).
Defined.

(** ** The job, stage by stage *)

Lemma filter_delete_False {A} (P : A → bool) (l : list A) (k : nat) x :
  l !! k = Some x → P x = false → filter P (delete k l) = filter P l.
Proof.
  intros Hk Hx. rewrite delete_take_drop.
  rewrite <- (take_drop_middle l k x Hk) at 3.
  rewrite !filter_app. f_equal. rewrite filter_cons_False; [done|].
  intros H. rewrite Hx in H. exact H.
Qed.

Lemma filter_delete_True {A} (P : A → bool) (l : list A) (k : nat) x :
  l !! k = Some x → P x = true →
  length (filter P l) = S (length (filter P (delete k l))).
Proof.
  intros Hk Hx. rewrite delete_take_drop.
  rewrite <- (take_drop_middle l k x Hk) at 1.
  rewrite !filter_app, !length_app.
  rewrite filter_cons_True by (by rewrite Hx). simpl. lia.
Qed.

Lemma closeCurrent_inflight st : inflight (closeCurrent st) = inflight st.
Proof. apply closeCurrent_fields. Qed.
Lemma closeCurrent_isSubmitting st :
  isSubmitting (closeCurrent st) = isSubmitting st.
Proof. apply closeCurrent_fields. Qed.
Lemma closeCurrent_result st : result (closeCurrent st) = result st.
Proof. apply closeCurrent_fields. Qed.
Lemma closeCurrent_error st : error (closeCurrent st) = error st.
Proof. apply closeCurrent_fields. Qed.
Lemma closeCurrent_jobStatus st : jobStatus (closeCurrent st) = jobStatus st.
Proof. apply closeCurrent_fields. Qed.
Lemma closeCurrent_logs st : logs (closeCurrent st) = logs st.
Proof. apply closeCurrent_fields. Qed.
Lemma closeCurrent_eventSourceRef st :
  eventSourceRef (closeCurrent st) = eventSourceRef st.
Proof. apply closeCurrent_fields. Qed.
Lemma closeCurrent_network st : network (closeCurrent st) = network st.
Proof. unfold closeCurrent, close. by destruct (eventSourceRef st). Qed.

Create Rewrite HintDb fields.
#[local] Hint Rewrite closeCurrent_inflight closeCurrent_isSubmitting
  closeCurrent_result closeCurrent_error closeCurrent_jobStatus
  closeCurrent_logs closeCurrent_eventSourceRef closeCurrent_network : fields.

(** Read a field through the setters above it. *)
Ltac fields :=
  repeat (progress
    (cbn [teamInput seasonId fieldOptions defaultFields selectedFields jobId
          jobStatus logs error result eventSourceRef isSubmitting sources
          inflight network console
          setTeamInput setSeasonId setFieldOptions setDefaultFields
          setSelectedFields setJobId setJobStatus setLogs setError setResult
          assignEventSourceRef setIsSubmitting withSources withInflight
          withNetwork withConsole appendLog];
     autorewrite with fields)).

(** A state that differs only in fields no stage looks at. *)
Lemma Stage_frame shown st st' :
  runsPending st' = runsPending st → sources st' = sources st →
  eventSourceRef st' = eventSourceRef st →
  isSubmitting st' = isSubmitting st → result st' = result st →
  jobStatus st' = jobStatus st → (shown (error st) → shown (error st')) →
  Stage shown st → Stage shown st'.
Proof.
  intros Hi Hs Hr Hb Hres Hj He
    [H0 Hn Hk|H1 Hn Hb' Hres' Hc|s H0 Ho Hl Hb' Hres' Hc].
  - apply Quiet; [congruence|by apply (noneOpen_frame st)|].
    rewrite Hres, Hj. intros Hsome. destruct (Hk Hsome) as [Hdone Herr].
    split; [done|]. by apply He.
  - apply Awaiting; [congruence|by apply (noneOpen_frame st)|congruence..|].
    by apply He.
  - apply (Streaming _ _ s); [congruence| | |congruence..|].
    + by rewrite (isOpen_frame s st).
    + by apply (oneLive_frame st).
    + by apply He.
Qed.

(** A state with nothing pending, nothing open and no result. *)
Lemma Stage_idle shown st :
  runsPending st = 0%nat → noneOpen st → result st = None → Stage shown st.
Proof.
  intros H0 Hn Hres. apply Quiet; [done..|]. rewrite Hres. by intros [? [=]].
Qed.

Lemma fetchFields_resume_error r st :
  error (fetchFields_resume r st)
  = if loads r then error st
    else Some (js "Unable to load workbook fields. Refresh and try again.").
Proof.
  unfold loads, fetchFields_resume. destruct r as [response|err]; [|done].
  destruct (Response.ok response); [|done]. simpl.
  by destruct (Response.json response).
Qed.

Lemma Stage_busy_submitting shown st :
  Stage shown st → isSubmitting st = false →
  runsPending st = 0%nat ∧ noneOpen st.
Proof.
  intros [H0 Hn _|_ _ Hb _ _|s _ _ _ Hb _ _] Hf; [done|congruence..].
Qed.

Lemma Stage_open shown st s :
  Stage shown st → isOpen s st = true →
  runsPending st = 0%nat ∧ oneLive st ∧ isSubmitting st = true
  ∧ result st = None ∧ shown (error st).
Proof.
  intros [_ Hn _|_ Hn _ _ _|s' H0 _ Hl Hb Hres Hc] Hs;
    [by rewrite Hn in Hs..|done].
Qed.

Lemma startStream_fields env res id st :
  let st' := startStream env res id st in
  inflight st' = inflight st ∧ isSubmitting st' = isSubmitting st
  ∧ result st' = result st ∧ error st' = error st
  ∧ jobStatus st' = jobStatus st ∧ logs st' = logs st.
Proof. unfold startStream. fields. done. Qed.

Lemma onerror_fields s st :
  let st' := onerror s st in
  inflight st' = inflight st ∧ result st' = result st
  ∧ jobStatus st' = jobStatus st ∧ logs st' = logs st
  ∧ eventSourceRef st' = None ∧ isSubmitting st' = false.
Proof.
  unfold onerror, close.
  by destruct (sources st !! s ≫= EventSource.result).
Qed.

(** Every callback the form lets through keeps the page in a stage.
    What the stage knows of the error has to allow for no error (an
    accepted submission clears it) and for the message of each
    rejected submission and each failed catalogue load that occurs. *)
Lemma dispatch_Stage env (shown : option JSString → Prop) a st :
  enabled a st = true →
  shown None →
  (isRejectedSubmit a st = true →
   shown (Some (js "Provide at least one club ID."))) →
  (isFieldsFailure a st = true →
   shown (Some (js "Unable to load workbook fields. Refresh and try again."))) →
  Stage shown st → Stage shown (dispatch env a st).
Proof.
  intros Hen Hnone Hrej Hfail Hst.
  destruct a as [k r|v|v|f| | | | |s clock evt|s|]; cbn [dispatch];
    try by apply (Stage_frame shown st).
  - (* a fetch settles *)
    destruct (inflight st !! k) as [[|res]|] eqn:Hk; [| |done].
    + set (st0 := withInflight (delete k (inflight st)) st).
      assert (H0 : Stage shown st0).
      { apply (Stage_frame shown st); try done.
        unfold runsPending. cbn. f_equal.
        by apply (filter_delete_False isAwaitRun _ _ AwaitFields). }
      destruct (fetchFields_resume_frame r st0)
        as (Hs & Hr & Hi & Hb & Hres & Hj & _).
      apply (Stage_frame shown st0); try done.
      * unfold runsPending. by rewrite Hi.
      * rewrite fetchFields_resume_error. cbn in Hfail. rewrite Hk in Hfail.
        destruct (loads r); [done|]. intros _. by apply Hfail.
    + pose proof (filter_delete_True isAwaitRun _ _ _ Hk eq_refl) as Hlen.
      destruct Hst as [H0 _ _|H1 Hn Hb Hres Hc|s H0 _ _ _ _ _];
        [unfold runsPending in H0; lia| |unfold runsPending in H0; lia].
      set (st0 := withInflight (delete k (inflight st)) st).
      assert (Hrun0 : runsPending st0 = 0%nat).
      { unfold runsPending in *. cbn. lia. }
      assert (Hn0 : noneOpen st0) by (by apply (noneOpen_frame st)).
      assert (Hcatch : ∀ err, Stage shown (onSubmit_catch err st0)).
      { intros err. apply Stage_idle; [done| |done].
        by apply (noneOpen_frame st0). }
      unfold onSubmit_resume. destruct r as [response|err]; [|apply Hcatch].
      destruct (Response.ok response); simpl; [|apply Hcatch].
      destruct (Response.json response) as [payload|err]; [|apply Hcatch].
      set (st1 := setJobStatus (js "running")
                    (setJobId (Payload.job_id payload) st0)).
      assert (Hl1 : oneLive st1).
      { apply noneOpen_oneLive. by apply (noneOpen_frame st0). }
      destruct (startStream_fields env res (Payload.job_id payload) st1)
        as (Hi' & Hb' & Hres' & He' & _).
      apply (Streaming _ _ (length (sources st1))).
      * unfold runsPending. by rewrite Hi'.
      * rewrite startStream_isOpen by done. by apply bool_decide_eq_true.
      * by apply startStream_oneLive.
      * by rewrite Hb'.
      * by rewrite Hres'.
      * rewrite He'. exact Hc.
  - (* the form is submitted *)
    cbn in Hen. apply andb_prop in Hen as [Hb _]. apply negb_true_iff in Hb.
    destruct (Stage_busy_submitting shown st Hst Hb) as [H0 Hn].
    unfold onSubmit. case_bool_decide as Hparse.
    + apply (Stage_frame shown st); try done.
      intros _. apply Hrej. cbn. by apply bool_decide_eq_true_2.
    + apply Awaiting.
      * unfold runsPending, resetJobState in *. fields.
        rewrite filter_app, length_app, H0. reflexivity.
      * apply (noneOpen_frame (resetJobState st)); [done|].
        by apply resetJobState_noneOpen, noneOpen_oneLive.
      * done.
      * done.
      * exact Hnone.
  - (* a message arrives *)
    destruct (isOpen s st) eqn:Hs; [|done].
    destruct (Stage_open shown st s Hst Hs) as (H0 & Hl & Hb & Hres & Hc).
    unfold onmessage. destruct (Boolean (MessageEvent.data evt)); [|done].
    simpl. destruct (MessageEvent.parsed evt) as [event|];
      [|by apply (Stage_frame shown st)].
    destruct (tag event) as [E|E|E|E|E1 E2 E3 E4].
    + rewrite handleStreamEvent_status by done.
      by apply (Streaming _ _ s).
    + rewrite handleStreamEvent_log by done.
      by apply (Stage_frame shown st).
    + rewrite handleStreamEvent_error by done. apply Stage_idle.
      * unfold runsPending in *. by fields.
      * eapply noneOpen_frame; [|apply closeCurrent_noneOpen].
        -- reflexivity.
        -- by eapply oneLive_frame; [| |exact Hl].
      * by fields.
    + rewrite handleStreamEvent_result by done. apply Quiet.
      * unfold runsPending in *. by fields.
      * eapply noneOpen_frame; [|apply closeCurrent_noneOpen].
        -- reflexivity.
        -- by eapply oneLive_frame; [| |exact Hl].
      * intros _. fields. done.
    + by rewrite handleStreamEvent_other.
  - (* the transport fails *)
    destruct (isOpen s st) eqn:Hs; [|done].
    destruct (Stage_open shown st s Hst Hs) as (H0 & Hl & Hb & Hres & Hc).
    destruct (onerror_fields s st) as (Hi' & Hres' & _).
    apply Stage_idle.
    * unfold runsPending. by rewrite Hi'.
    * by apply onerror_noneOpen.
    * by rewrite Hres'.
  - (* the page goes away *)
    unfold unmount.
    destruct Hst as [H0 Hn Hk|H1 Hn Hb Hres Hc|s H0 Ho Hl Hb Hres Hc].
    + apply Quiet.
      * unfold runsPending in *. by fields.
      * by apply closeCurrent_noneOpen, noneOpen_oneLive.
      * by fields.
    + apply Awaiting.
      * unfold runsPending in *. by fields.
      * by apply closeCurrent_noneOpen, noneOpen_oneLive.
      * by fields.
      * by fields.
      * by fields.
    + apply Stage_idle.
      * unfold runsPending in *. by fields.
      * by apply closeCurrent_noneOpen.
      * by fields.
Qed.

Lemma mount_Stage env shown : Stage shown (mount env).
Proof. apply Stage_idle; [done|apply mount_noneOpen|done]. Qed.

(** Through the form, an error shown next to a job in progress or to a
    result is one of the form's own. *)
Lemma ui_reachable_Stage env st : ui_reachable env st → Stage formError st.
Proof.
  induction 1 as [|st a _ IH Ha]; [apply mount_Stage|].
  apply dispatch_Stage; try done; unfold formError; eauto.
Qed.

(** With every submission accepted and the catalogue loaded, none is. *)
Lemma job_reachable_Stage env st : job_reachable env st → Stage noError st.
Proof.
  induction 1 as [|st a _ IH Ha]; [apply mount_Stage|].
  apply andb_prop in Ha as [[Hen Hrej]%andb_prop Hload].
  apply negb_true_iff in Hrej, Hload.
  apply dispatch_Stage; try done; congruence.
Qed.

(** ** One live channel *)

(** C4. At most one live channel: in every reachable state at most one
    event source is open, and it is the one [eventSourceRef] holds;
    [startStream] closes whatever was open before it creates the new
    source, which is then the only open one; an accepted submission and
    the unmount cleanup leave no source open, and so does every
    submission the form lets through. *)
Theorem C4_at_most_one_live_channel (env : option JSString) (st : State) :
  reachable env st →
  (∀ s s', isOpen s st = true → isOpen s' st = true → s = s')
  ∧ (∀ s, isOpen s st = true → eventSourceRef st = Some s)
  ∧ noneOpen (closeCurrent st)
  ∧ (∀ result id s,
       isOpen s (startStream env result id st) = true
       ↔ s = length (sources st))
  ∧ (∀ result id,
       eventSourceRef (startStream env result id st)
       = Some (length (sources st)))
  ∧ (parseTeamIds (teamInput st) ≠ [] → noneOpen (dispatch env Submit st))
  ∧ (ui_reachable env st → enabled Submit st = true →
     noneOpen (dispatch env Submit st))
  ∧ noneOpen (dispatch env Unmount st).
Proof.
  intros Hreach. pose proof (reachable_oneLive env st Hreach) as H.
  assert (Haccepted :
            parseTeamIds (teamInput st) ≠ [] →
            noneOpen (dispatch env Submit st)).
  { intros Hne. cbn [dispatch]. unfold onSubmit.
    rewrite bool_decide_eq_false_2.
    - apply (noneOpen_frame (resetJobState st)); [done|].
      by apply resetJobState_noneOpen.
    - by destruct (parseTeamIds (teamInput st)). }
  split; [|split; [|split; [|split; [|split; [|split; [|split]]]]]].
  - intros s s'. by apply oneLive_unique.
  - exact H.
  - by apply closeCurrent_noneOpen.
  - intros result id s. rewrite startStream_isOpen by done.
    apply bool_decide_eq_true.
  - intros result id. unfold startStream. cbn.
    by destruct (closeCurrent_fields st) as (_ & _ & _ & _ & _ & _ & _ & ->).
  - exact Haccepted.
  - intros Hui Hen. cbn in Hen. apply andb_prop in Hen as [Hb _].
    apply negb_true_iff in Hb.
    destruct (Stage_busy_submitting formError st
                (ui_reachable_Stage env st Hui) Hb) as [_ Hn].
    destruct (decide (parseTeamIds (teamInput st) = [])) as [E|Hne];
      [|by apply Haccepted].
    cbn [dispatch]. unfold onSubmit. rewrite E. simpl.
    by apply (noneOpen_frame st).
  - by apply closeCurrent_noneOpen.
Qed.

Lemma C4_one_live_channel_witness :
  let st := run None secondJobStreaming (mount None) in
  reachable None st
  ∧ ((∀ s s', isOpen s st = true → isOpen s' st = true → s = s')
     ∧ (∀ s, isOpen s st = true → eventSourceRef st = Some s)
     ∧ noneOpen (closeCurrent st)
     ∧ (∀ result id s,
          isOpen s (startStream None result id st) = true
          ↔ s = length (sources st))
     ∧ (∀ result id,
          eventSourceRef (startStream None result id st)
          = Some (length (sources st)))
     ∧ (parseTeamIds (teamInput st) ≠ [] → noneOpen (dispatch None Submit st))
     ∧ (ui_reachable None st → enabled Submit st = true →
        noneOpen (dispatch None Submit st))
     ∧ noneOpen (dispatch None Unmount st)).
Proof.
  intros st.
  assert (H : reachable None st).
  { apply ui_reachable_reachable, job_reachable_ui_reachable.
    exact secondJobStreaming_reachable. }
  split; [exact H|]. exact (C4_at_most_one_live_channel None st H).
Defined.

Example secondJobStreaming_channels :
  let st := run None secondJobStreaming (mount None) in
  EventSource.closed <$> sources st = [true; false]
  ∧ eventSourceRef st = Some 1%nat.
Proof. vm_compute. done. Qed.

(** ** Result, error and status *)

(** C3, as the specification states it, fails: when the field catalogue does
    not load, the error is set while the status is still ["Idle"]. *)
Lemma C3_error_without_failed_counterexample :
  ui_reachable None catalogueFailed
  ∧ is_Some (error catalogueFailed)
  ∧ jobStatus catalogueFailed = js "Idle"
  ∧ ¬ (is_Some (error catalogueFailed)
       ↔ jobStatus catalogueFailed = js "failed").
Proof.
  split; [by repeat constructor|]. split; [by eexists|].
  split; [reflexivity|]. intros [H _].
  assert (E : jobStatus catalogueFailed = js "failed") by (apply H; by eexists).
  vm_compute in E. discriminate.
Qed.

(** The other directions are no invariants either: the server's status
    string is taken as it comes. *)
Example status_without_result_or_error :
  let st := run None firstJobStreaming (mount None) in
  let completed := dispatch None (StreamMessage 0 sampleClock (statusMessage "completed")) st in
  let failed := dispatch None (StreamMessage 0 sampleClock (statusMessage "failed")) st in
  ui_reachable None completed ∧ ui_reachable None failed
  ∧ (jobStatus completed = js "completed" ∧ result completed = None)
  ∧ (jobStatus failed = js "failed" ∧ error failed = None).
Proof.
  intros st completed failed.
  assert (H : ui_reachable None st).
  { apply job_reachable_ui_reachable, firstJobStreaming_reachable. }
  split; [by constructor|]. split; [by constructor|]. vm_compute. done.
Qed.

(** C3 (amended). In every state reached through the form, a result is
    there only with the status ["completed"]; and each step that sets
    the status to ["failed"] (an [error] event, a failed submission)
    sets the error with it, as the [result] event sets ["completed"]
    with the result. *)
Theorem C3_result_only_when_completed (env : option JSString) (st : State) :
  ui_reachable env st →
  (is_Some (result st) → jobStatus st = js "completed")
  ∧ (∀ clock event,
       StreamEvent.type event = js "result" →
       let st' := handleStreamEvent clock event st in
       jobStatus st' = js "completed" ∧ result st' = StreamEvent.data event)
  ∧ (∀ clock event,
       StreamEvent.type event = js "error" →
       let st' := handleStreamEvent clock event st in
       jobStatus st' = js "failed" ∧ is_Some (error st'))
  ∧ (∀ err,
       let st' := onSubmit_catch err st in
       jobStatus st' = js "failed" ∧ is_Some (error st')).
Proof.
  intros Hreach. split; [|split; [|split]].
  - intros Hsome.
    destruct (ui_reachable_Stage env st Hreach)
      as [_ _ Hk|_ _ _ Hres _|s _ _ _ _ Hres _].
    + by destruct (Hk Hsome).
    + rewrite Hres in Hsome. by destruct Hsome.
    + rewrite Hres in Hsome. by destruct Hsome.
  - intros clock event E. rewrite handleStreamEvent_result by done.
    fields. done.
  - intros clock event E. rewrite handleStreamEvent_error by done.
    fields. split; [done|by eexists].
  - intros err. unfold onSubmit_catch. fields. split; [done|by eexists].
Qed.

Lemma C3_result_only_when_completed_witness :
  let st :=
    run None
      (firstJobStreaming
       ++ [StreamMessage 0 sampleClock (resultMessage sampleResult)])
      (mount None) in
  ui_reachable None st
  ∧ is_Some (result st)
  ∧ jobStatus st = js "completed".
Proof.
  intros st.
  assert (H : ui_reachable None st).
  { apply reachable_by_run; [constructor|]. vm_compute. reflexivity. }
  assert (Hsome : is_Some (result st)) by (by eexists).
  split; [exact H|]. split; [exact Hsome|].
  exact (proj1 (C3_result_only_when_completed None st H) Hsome).
Defined.

(** ** Result and error together *)

(** C6, as the specification states it, fails: a submission rejected by the
    validation after a completed job sets the error and keeps the
    result. *)
Lemma C6_result_and_error_counterexample :
  let st := run None rejectedAfterResult (mount None) in
  ui_reachable None st
  ∧ result st = Some sampleResult
  ∧ error st = Some (js "Provide at least one club ID.").
Proof.
  intros st. split; [|by vm_compute].
  apply reachable_by_run; [constructor|]. vm_compute. reflexivity.
Qed.

(** A catalogue that fails to load while a job runs does the same. *)
Example late_catalogue_failure :
  let st :=
    run None
      [TeamInputChange (js "6251"); Submit; Settle 1 (created "abc123");
       Settle 0 (Rejected NotAnError);
       StreamMessage 0 sampleClock (resultMessage sampleResult)]
      (mount None) in
  ui_reachable None st ∧ is_Some (result st) ∧ is_Some (error st).
Proof.
  intros st. split; [|by split; eexists].
  apply reachable_by_run; [constructor|]. vm_compute. reflexivity.
Qed.

(** C6 (amended). Through the form, a result and an error are shown
    together only when the error is the message of the form's
    validation or of the catalogue load; along every execution in which
    each submission is accepted and the field catalogue loads -
    whatever the stream events, run responses, edits and submissions
    applied - the result and the error are never both set. *)
Theorem C6_result_error_exclusive (env : option JSString) (st : State) :
  ui_reachable env st →
  (is_Some (result st) → formError (error st))
  ∧ (job_reachable env st → ¬ (is_Some (result st) ∧ is_Some (error st))).
Proof.
  intros Hui. split.
  - intros Hres.
    destruct (ui_reachable_Stage env st Hui)
      as [_ _ Hk|_ _ _ Hnone _|s _ _ _ _ Hnone _].
    + by destruct (Hk Hres).
    + rewrite Hnone in Hres. by destruct Hres.
    + rewrite Hnone in Hres. by destruct Hres.
  - intros Hjob [Hres Herr].
    destruct (job_reachable_Stage env st Hjob)
      as [_ _ Hk|_ _ _ Hnone _|s _ _ _ _ Hnone _].
    + destruct (Hk Hres) as [_ He]. rewrite He in Herr. by destruct Herr.
    + rewrite Hnone in Hres. by destruct Hres.
    + rewrite Hnone in Hres. by destruct Hres.
Qed.

Lemma C6_result_error_exclusive_witness :
  let st :=
    run None
      (firstJobStreaming
       ++ [StreamMessage 0 sampleClock (resultMessage sampleResult);
           StreamMessage 0 sampleClock (errorMessage "scrape failed");
           StreamError 0])
      (mount None) in
  ui_reachable None st
  ∧ ((is_Some (result st) → formError (error st))
     ∧ (job_reachable None st
        → ¬ (is_Some (result st) ∧ is_Some (error st)))).
Proof.
  intros st.
  assert (H : job_reachable None st).
  { apply reachable_by_run; [constructor|]. vm_compute. reflexivity. }
  assert (Hui : ui_reachable None st).
  { by apply job_reachable_ui_reachable. }
  split; [exact Hui|]. exact (C6_result_error_exclusive None st Hui).
Defined.

Example result_kept_without_error :
  let st :=
    run None
      (firstJobStreaming
       ++ [StreamMessage 0 sampleClock (resultMessage sampleResult);
           StreamMessage 0 sampleClock (errorMessage "scrape failed");
           StreamError 0])
      (mount None) in
  result st = Some sampleResult ∧ error st = None
  ∧ jobStatus st = js "completed".
Proof. by vm_compute. Qed.

(** ** Losing the connection *)

Lemma onerror_error s st :
  error (onerror s st)
  = match sources st !! s ≫= EventSource.result with
    | None => Some (js "Connection to workflow stream lost.")
    | Some _ => error st
    end.
Proof.
  unfold onerror. by destruct (sources st !! s ≫= EventSource.result).
Qed.

(** Log deliveries on an open stream touch the log only. *)
Lemma log_deliveries env s deliveries st :
  isOpen s st = true →
  Forall (λ d, isLogMessage d.2 = true) deliveries →
  let st' := run env (deliver s <$> deliveries) st in
  sources st' = sources st ∧ eventSourceRef st' = eventSourceRef st
  ∧ jobStatus st' = jobStatus st ∧ result st' = result st
  ∧ error st' = error st
  ∧ length (logs st') = (length (logs st) + length deliveries)%nat.
Proof.
  intros Hs Hl. revert st Hs.
  induction Hl as [|[clock evt] deliveries Hd _ IH]; intros st Hs.
  - simpl. repeat split. lia.
  - unfold run. cbn [fmap list_fmap foldl deliver fst snd dispatch].
    rewrite Hs. unfold isLogMessage in Hd. simpl in Hd.
    apply andb_prop in Hd as [Hdata Hparsed].
    unfold onmessage. rewrite Hdata. simpl.
    destruct (MessageEvent.parsed evt) as [event|]; [|done].
    apply bool_decide_eq_true in Hparsed.
    rewrite handleStreamEvent_log by done.
    destruct (IH (appendLog (logLine clock event) st) Hs)
      as (E1 & E2 & E3 & E4 & E5 & E6).
    unfold run in *. rewrite E1, E2, E3, E4, E5, E6. repeat split.
    cbn. rewrite length_app. simpl. lia.
Qed.

(** C1, as the specification states it, fails: after [status:"running"], one
    [log] and a transport error, the status is still ["running"]; the
    handler of the transport error never sets it. *)
Lemma C1_status_not_failed_counterexample :
  let st :=
    run None
      (firstJobStreaming
       ++ [StreamMessage 0 sampleClock (statusMessage "running");
           StreamMessage 0 sampleClock (logMessage "fetching 6251");
           StreamError 0])
      (mount None) in
  ui_reachable None st
  ∧ jobStatus st = js "running" ∧ jobStatus st ≠ js "failed"
  ∧ error st = Some (js "Connection to workflow stream lost.").
Proof.
  intros st. split.
  - apply reachable_by_run; [constructor|]. vm_compute. reflexivity.
  - by vm_compute.
Qed.

(** C1 (amended). Connection drop: on a stream whose handler captured
    no result (the job was submitted while no result was shown), a
    [status] event, any number of [log] events and then a transport
    error leave the status at the value the [status] event carried, the
    error at the connectivity message, every event source closed and
    the reference cleared, no result, and one log line per [log] event. *)
Theorem C1_connection_drop (env : option JSString) (st : State) (s : nat)
    (clock : Clock) (evt : MessageEvent.t) (event : StreamEvent.t)
    (deliveries : list (Clock * MessageEvent.t)) :
  ui_reachable env st → isOpen s st = true →
  sources st !! s ≫= EventSource.result = None →
  MessageEvent.data evt ≠ [] → MessageEvent.parsed evt = Some event →
  StreamEvent.type event = js "status" →
  Forall (λ d, isLogMessage d.2 = true) deliveries →
  let st' :=
    dispatch env (StreamError s)
      (run env (StreamMessage s clock evt :: (deliver s <$> deliveries)) st) in
  jobStatus st' = default (js "running") (StreamEvent.status event)
  ∧ error st' = Some (js "Connection to workflow stream lost.")
  ∧ noneOpen st' ∧ eventSourceRef st' = None
  ∧ result st' = None
  ∧ isSubmitting st' = false
  ∧ length (logs st') = (length (logs st) + length deliveries)%nat.
Proof.
  intros Hreach Hs Hcap Hdata Hparsed Htag Hlogs st'.
  destruct (Stage_open formError st s (ui_reachable_Stage env st Hreach) Hs)
    as (_ & Hl & _ & Hres & _).
  set (st1 := dispatch env (StreamMessage s clock evt) st).
  assert (E' : st' = dispatch env (StreamError s)
                       (run env (deliver s <$> deliveries) st1))
    by reflexivity.
  assert (E1 : st1 = setJobStatus
                       (default (js "running") (StreamEvent.status event)) st).
  { unfold st1. cbn [dispatch]. rewrite Hs. unfold onmessage. rewrite Hparsed.
    destruct (MessageEvent.data evt); [done|]. simpl.
    by apply handleStreamEvent_status. }
  assert (Hs1 : isOpen s st1 = true) by (by rewrite E1).
  destruct (log_deliveries env s deliveries st1 Hs1 Hlogs)
    as (F1 & F2 & F3 & F4 & F5 & F6).
  set (st2 := run env (deliver s <$> deliveries) st1) in *.
  assert (Hs2 : isOpen s st2 = true) by (by rewrite (isOpen_frame s st1)).
  assert (Hl2 : oneLive st2).
  { apply (oneLive_frame st); [by rewrite F1, E1|by rewrite F2, E1|done]. }
  rewrite E'. clear E' st'. cbn [dispatch]. rewrite Hs2.
  destruct (onerror_fields s st2) as (_ & G2 & G3 & G4 & G5 & G6).
  rewrite onerror_error, G2, G3, G4, G5, G6, F1, F3, F4, F6, E1.
  cbn [sources jobStatus result logs setJobStatus]. rewrite Hcap, Hres.
  repeat split. by apply onerror_noneOpen.
Qed.

Lemma C1_connection_drop_witness :
  let st := run None firstJobStreaming (mount None) in
  let evt := statusMessage "running" in
  let deliveries :=
    [(sampleClock, logMessage "fetching 6251");
     (sampleClock, logMessage "fetching 27")] in
  ui_reachable None st ∧ isOpen 0 st = true
  ∧ sources st !! 0%nat ≫= EventSource.result = None
  ∧ MessageEvent.data evt ≠ []
  ∧ Forall (λ d, isLogMessage d.2 = true) deliveries
  ∧ (let st' :=
       dispatch None (StreamError 0)
         (run None (StreamMessage 0 sampleClock evt
                    :: (deliver 0 <$> deliveries)) st) in
     jobStatus st' = js "running"
     ∧ error st' = Some (js "Connection to workflow stream lost.")
     ∧ noneOpen st' ∧ eventSourceRef st' = None
     ∧ result st' = None
     ∧ isSubmitting st' = false
     ∧ length (logs st') = (length (logs st) + length deliveries)%nat).
Proof.
  intros st evt deliveries.
  assert (H : ui_reachable None st).
  { apply job_reachable_ui_reachable. exact firstJobStreaming_reachable. }
  assert (Hs : isOpen 0 st = true) by reflexivity.
  assert (Hcap : sources st !! 0%nat ≫= EventSource.result = None)
    by reflexivity.
  assert (Hdata : MessageEvent.data evt ≠ []) by discriminate.
  assert (Hlogs : Forall (λ d, isLogMessage d.2 = true) deliveries).
  { repeat constructor. }
  split; [exact H|]. split; [exact Hs|]. split; [exact Hcap|].
  split; [exact Hdata|]. split; [exact Hlogs|].
  exact (C1_connection_drop None st 0 sampleClock evt _ deliveries
           H Hs Hcap Hdata eq_refl eq_refl Hlogs).
Defined.

(** The event source of a job captures the result that was shown when
    the form was submitted, not the one of the job. *)
Lemma startStream_captures env result id st :
  sources (startStream env result id st) !! length (sources st)
  ≫= EventSource.result = result.
Proof.
  unfold startStream. cbn [sources withSources assignEventSourceRef].
  destruct (closeCurrent_fields st) as (_ & _ & _ & _ & _ & _ & _ & Hlen).
  rewrite <- Hlen, list_lookup_middle by done. done.
Qed.

Lemma onSubmit_captures env st :
  parseTeamIds (teamInput st) ≠ [] →
  ∃ pending, inflight (onSubmit env st) = pending ++ [AwaitRun (result st)].
Proof.
  intros Hne. unfold onSubmit. rewrite bool_decide_eq_false_2.
  - eexists. reflexivity.
  - by destruct (parseTeamIds (teamInput st)).
Qed.

(** The same for every job submitted while a result is shown: when its
    stream opens and the transport then fails, no error is set, though
    the job itself has no result. *)
Lemma connection_loss_after_result env st payload :
  ui_reachable env st → is_Some (result st) →
  enabled Submit st = true → parseTeamIds (teamInput st) ≠ [] →
  let st1 := dispatch env Submit st in
  let response :=
    Fulfilled {| Response.ok := true; Response.json := Fulfilled payload |} in
  let st2 := dispatch env (Settle (length (inflight st)) response) st1 in
  let s := length (sources st) in
  let st3 := dispatch env (StreamError s) st2 in
  (result st2 = None ∧ isOpen s st2 = true ∧ jobStatus st2 = js "running")
  ∧ (result st3 = None ∧ error st3 = None ∧ jobStatus st3 = js "running"
     ∧ isOpen s st3 = false).
Proof.
  intros Hui [shownResult Hres] Hen Hne st1 response st2 s st3.
  cbn in Hen. apply andb_prop in Hen as [Hb _]. apply negb_true_iff in Hb.
  destruct (Stage_busy_submitting formError st
              (ui_reachable_Stage env st Hui) Hb) as [_ Hn].
  assert (Hl : oneLive (resetJobState st)).
  { by apply noneOpen_oneLive, resetJobState_noneOpen, noneOpen_oneLive. }
  assert (Hlen : length (sources (resetJobState st)) = length (sources st)).
  { unfold resetJobState. cbn.
    by destruct (closeCurrent_fields st) as (_ & _ & _ & _ & _ & _ & _ & ->). }
  assert (E1 : st1
               = withInflight (inflight st ++ [AwaitRun (result st)])
                   (withNetwork
                      (network st
                       ++ [POST (API_BASE env ++ js "/api/run")
                             (parseTeamIds (teamInput st))
                             (let season := trim (seasonId st) in
                              if Boolean season then Some season else None)
                             (selectedFields st)])
                      (setIsSubmitting true (resetJobState st)))).
  { unfold st1. cbn [dispatch]. unfold onSubmit.
    rewrite bool_decide_eq_false_2
      by (by destruct (parseTeamIds (teamInput st))).
    unfold resetJobState. fields. done. }
  assert (Hin : inflight st1 = inflight st ++ [AwaitRun (result st)])
    by (by rewrite E1).
  set (st1' := setJobStatus (js "running")
                 (setJobId (Payload.job_id payload)
                    (withInflight (inflight st) st1))).
  assert (E2 : st2 = startStream env (result st) (Payload.job_id payload) st1').
  { unfold st2. cbn [dispatch]. rewrite Hin.
    rewrite list_lookup_middle by done.
    rewrite (delete_middle (inflight st) [] (AwaitRun (result st))).
    rewrite app_nil_r. reflexivity. }
  assert (Hsrc : sources st1' = sources (resetJobState st)).
  { unfold st1'. cbn [sources setJobStatus setJobId withInflight].
    by rewrite E1. }
  assert (Hl1 : oneLive st1').
  { apply (oneLive_frame (resetJobState st)); [done| |done].
    unfold st1'. cbn [eventSourceRef setJobStatus setJobId withInflight].
    by rewrite E1. }
  assert (Hs1 : length (sources st1') = s) by (by rewrite Hsrc).
  assert (Hr1 : result st1' = None ∧ error st1' = None).
  { unfold st1'. cbn [result error setJobStatus setJobId withInflight].
    by rewrite E1. }
  destruct (startStream_fields env (result st) (Payload.job_id payload) st1')
    as (_ & _ & F3 & F4 & F5 & _).
  assert (Hs2 : isOpen s st2 = true).
  { rewrite E2, startStream_isOpen by done. by apply bool_decide_eq_true. }
  assert (Hcap : sources st2 !! s ≫= EventSource.result = result st).
  { rewrite E2, <- Hs1. apply startStream_captures. }
  destruct Hr1 as [Hr1 He1].
  assert (R2 : result st2 = None) by (by rewrite E2, F3).
  assert (J2 : jobStatus st2 = js "running") by (by rewrite E2, F5).
  assert (X2 : error st2 = None) by (by rewrite E2, F4).
  split; [done|].
  unfold st3. cbn [dispatch]. rewrite Hs2.
  destruct (onerror_fields s st2) as (_ & G2 & G3 & _).
  rewrite onerror_error, Hcap, Hres, G2, G3. repeat split; try done.
  apply onerror_noneOpen; [|done]. rewrite E2. by apply startStream_oneLive.
Qed.

(** C2: the code at the failing input.  A first job completes, a second
    one is submitted and its stream opens (event source 1, whose handler
    holds the first job's result); the stream reports one status and one
    log line and the transport fails.  No result was recorded for the
    second job, yet no error is shown: the status stays ["running"] with
    the stream closed. *)
Lemma C2_stale_result_hides_connection_loss :
  let st :=
    run None
      (secondJobStreaming
       ++ [StreamMessage 1 sampleClock (statusMessage "running");
           StreamMessage 1 sampleClock (logMessage "fetching 6251")])
      (mount None) in
  let st' := dispatch None (StreamError 1) st in
  ui_reachable None st ∧ isOpen 1 st = true
  ∧ result st = None ∧ error st = None
  ∧ sources st !! 1%nat ≫= EventSource.result = Some sampleResult
  ∧ result st' = None ∧ error st' = None
  ∧ jobStatus st' = js "running"
  ∧ isOpen 1 st' = false ∧ isSubmitting st' = false.
Proof.
  intros st st'. split.
  - apply reachable_by_run; [constructor|]. vm_compute. reflexivity.
  - by vm_compute.
Qed.

(** * Further properties of the page *)

(** ** More on parsing *)

(** X1. No parsed id is empty, none contains a comma or a newline, and
    none starts or ends with a code unit [trim] strips. *)
Theorem parseTeamIds_ids_are_clean (input : JSString) :
  Forall (λ t, t ≠ []
               ∧ Forall (λ c, isSeparator c = false) t
               ∧ headKept t ∧ headKept (reverse t))
         (parseTeamIds input).
Proof.
  pose proof (parseTeamIds_tokens input) as H.
  eapply Forall_impl; [exact H|]. intros t (Hne & Hfree & Htrim).
  split; [done|]. split; [done|]. rewrite <- Htrim. split.
  - apply headKept_trimEnd, trimStart_headKept.
  - unfold trim, trimEnd. rewrite reverse_involutive.
    apply (trimStart_headKept (reverse (trimStart t))).
Qed.

(** The pieces of a text followed by a separator and more text: those of
    the first part, the last one dropped when it is the empty piece a
    separator leaves, then those of the second part. *)
Lemma split_app_separator a c b r :
  isSeparator c = true →
  ∃ front,
    split (a ++ c :: b) r = front ++ split b true
    ∧ (split a r = front ∨ split a r = front ++ [[]])
    ∧ (r = false → front ≠ []).
Proof.
  intros Hc. revert r. induction a as [|x a IH]; intros r.
  - simpl. rewrite Hc. destruct r.
    + exists []. split; [done|]. split; [by right|done].
    + exists [[]]. split; [done|]. split; [by left|done].
  - cbn [app split]. destruct (isSeparator x) eqn:Hx.
    + destruct (IH true) as (front & E & Hfront & _). destruct r.
      * exists front. by rewrite E.
      * exists ([] :: front). rewrite E. split; [done|].
        split; [|done]. by destruct Hfront as [-> | ->]; [left|right].
    + destruct (IH false) as (front & E & Hfront & Hne).
      destruct front as [|piece pieces]; [by destruct Hne|].
      exists ((x :: piece) :: pieces). rewrite E. split; [done|].
      split; [|done]. by destruct Hfront as [-> | ->]; [left|right].
Qed.

Lemma parse_in_run b :
  filter Boolean (trim <$> split b true)
  = filter Boolean (trim <$> split b false).
Proof.
  destruct b as [|x b]; [done|]. simpl. by destruct (isSeparator x).
Qed.

(** X2. Parsing composes: the ids of two texts joined by a comma or a
    newline are the ids of the first followed by the ids of the second. *)
Theorem parseTeamIds_app (a b : JSString) (c : N) :
  isSeparator c = true →
  parseTeamIds (a ++ c :: b) = parseTeamIds a ++ parseTeamIds b.
Proof.
  intros Hc. unfold parseTeamIds.
  destruct (split_app_separator a c b false Hc) as (front & E & Hfront & _).
  rewrite E, fmap_app, filter_app, parse_in_run. f_equal.
  destruct Hfront as [-> | ->]; [done|].
  rewrite fmap_app, filter_app. simpl. by rewrite app_nil_r.
Qed.

Lemma parseTeamIds_app_witness :
  isSeparator 10 = true
  ∧ parseTeamIds (js " 6251 ,, " ++ 10 :: js ",27 , 40")
    = parseTeamIds (js " 6251 ,, ") ++ parseTeamIds (js ",27 , 40").
Proof.
  split; [reflexivity|].
  exact (parseTeamIds_app (js " 6251 ,, ") (js ",27 , 40") 10 eq_refl).
Defined.

(** ** More on download links *)

(** X3. Two well-formed paths with the same download link are the same
    path. *)
Theorem downloadUrl_injective (env : option JSString) (p p' : JSString) :
  isWellFormed p = true → isWellFormed p' = true →
  downloadUrl env p = downloadUrl env p' → p = p'.
Proof.
  intros Hp Hp' E.
  destruct (encodeURIComponent_decodable p Hp) as (q & Hq & Hdec & _).
  destruct (encodeURIComponent_decodable p' Hp') as (q' & Hq' & Hdec' & _).
  unfold downloadUrl in E. rewrite Hq, Hq' in E.
  cbn [mbind option_bind] in E.
  assert (E' : API_BASE env ++ js "/download?path=" ++ q
               = API_BASE env ++ js "/download?path=" ++ q') by congruence.
  pose proof (app_inv_head _ _ _ (app_inv_head _ _ _ E')) as E2.
  congruence.
Qed.

Lemma downloadUrl_injective_witness :
  isWellFormed (js "out/a b.csv") = true
  ∧ isWellFormed (js "out/a b.csv") = true
  ∧ downloadUrl None (js "out/a b.csv") = downloadUrl None (js "out/a b.csv")
  ∧ js "out/a b.csv" = js "out/a b.csv".
Proof.
  split; [reflexivity|]. split; [reflexivity|]. split; [reflexivity|].
  exact (downloadUrl_injective None (js "out/a b.csv") (js "out/a b.csv")
           eq_refl eq_refl eq_refl).
Defined.

Lemma distributes_step (piece : JSString) a :
  distributes a → isWellFormed a = true → ∀ b,
  (piece ++.) <$> encodeURIComponent (a ++ b)
  = ((piece ++.) <$> encodeURIComponent a)
    ≫= λ qa, (qa ++.) <$> encodeURIComponent b.
Proof.
  intros IH Hwf b. rewrite (IH b Hwf).
  destruct (encodeURIComponent a) as [qa|]; [|done]. simpl.
  destruct (encodeURIComponent b) as [qb|]; [|done]. simpl.
  by rewrite app_assoc.
Qed.

Lemma encodeURIComponent_distributes a :
  distributes a ∧ ∀ c, distributes (c :: a).
Proof.
  induction a as [|d a [IH0 IH1]].
  - assert (H0 : distributes []).
    { intros b _. simpl. by destruct (encodeURIComponent b). }
    split; [done|]. intros c b Hwf.
    change ((c :: []) ++ b) with (c :: ([] ++ b)).
    rewrite !encodeURIComponent_cons. rewrite isWellFormed_cons in Hwf.
    destruct (isUnreserved c).
    { by apply (distributes_step [c] []). }
    destruct (isLeadSurrogate c); [done|].
    destruct (isTrailSurrogate c); [by rewrite andb_false_r in Hwf|].
    by apply (distributes_step (escape c) []).
  - split; [apply IH1|]. intros c b Hwf.
    change ((c :: d :: a) ++ b) with (c :: d :: (a ++ b)).
    rewrite (encodeURIComponent_cons c (d :: a ++ b)).
    rewrite (encodeURIComponent_cons c (d :: a)).
    rewrite isWellFormed_cons in Hwf.
    destruct (isUnreserved c) eqn:Hu.
    { destruct (isUnreserved_ascii c Hu) as [Hlt _].
      replace (isLeadSurrogate c) with false in Hwf
        by (unfold isLeadSurrogate; settle; done).
      apply andb_prop in Hwf as [_ Hwf].
      by apply (distributes_step [c] (d :: a)). }
    destruct (isLeadSurrogate c).
    + apply andb_prop in Hwf as [Hd Hwf]. rewrite Hd.
      by apply (distributes_step _ a).
    + apply andb_prop in Hwf as [[_ Htr]%andb_prop Hwf].
      apply negb_true_iff in Htr. rewrite Htr.
      by apply (distributes_step (escape c) (d :: a)).
Qed.

(** X4. Encoding composes: after a well-formed first part, the encoding
    of a concatenation is the concatenation of the encodings (and it
    throws when either part does). *)
Theorem encodeURIComponent_app (a b : JSString) :
  isWellFormed a = true →
  encodeURIComponent (a ++ b)
  = encodeURIComponent a ≫= λ qa, (qa ++.) <$> encodeURIComponent b.
Proof. intros Hwf. by apply (proj1 (encodeURIComponent_distributes a)). Qed.

Lemma encodeURIComponent_app_witness :
  isWellFormed (js "out/") = true
  ∧ encodeURIComponent (js "out/" ++ js "a b.csv")
    = encodeURIComponent (js "out/")
      ≫= λ qa, (qa ++.) <$> encodeURIComponent (js "a b.csv").
Proof.
  split; [reflexivity|].
  exact (encodeURIComponent_app (js "out/") (js "a b.csv") eq_refl).
Defined.

(** The first part has to be well formed: a lead surrogate at its end
    pairs with a trail surrogate at the start of the second. *)
Example encodeURIComponent_app_surrogates :
  encodeURIComponent ([55357] ++ [56832]) = Some (js "%F0%9F%98%80")
  ∧ encodeURIComponent [55357] = None.
Proof. by vm_compute. Qed.

Lemma escape_length cp : (3 <= length (escape cp))%nat.
Proof.
  unfold escape, utf8.
  destruct (cp <? 128); [simpl; lia|].
  destruct (cp <? 2048); [simpl; lia|].
  destruct (cp <? 65536); simpl; lia.
Qed.

Lemma encodeURIComponent_grows s : grows s ∧ ∀ c, grows (c :: s).
Proof.
  assert (Hstep : ∀ c rest, isUnreserved c = true → grows rest →
                            grows (c :: rest)).
  { intros c rest Hu IH q. rewrite encodeURIComponent_cons, Hu.
    destruct (encodeURIComponent rest) as [q'|] eqn:E; [|done].
    intros [= <-]. destruct (IH q' E) as [Hle Heq].
    simpl. split; [lia|]. intros El. constructor; [done|]. apply Heq. lia. }
  assert (Hesc : ∀ piece units rest, (length units < 3)%nat →
                   (3 <= length piece)%nat → grows rest → ∀ q,
                   (piece ++.) <$> encodeURIComponent rest = Some q →
                   (length (units ++ rest) <= length q)%nat
                   ∧ (length q = length (units ++ rest) →
                      Forall (λ c, isUnreserved c = true) (units ++ rest))).
  { intros piece units rest Hu Hp IH q.
    destruct (encodeURIComponent rest) as [q'|] eqn:E; [|done].
    intros [= <-]. destruct (IH q' E) as [Hle _].
    rewrite !length_app. split; lia. }
  induction s as [|d s [IH0 IH1]].
  - assert (H0 : grows []).
    { intros q [= <-]. by split. }
    split; [done|]. intros c.
    destruct (isUnreserved c) eqn:Hu; [by apply Hstep|].
    intros q. rewrite encodeURIComponent_cons, Hu.
    destruct (isLeadSurrogate c); [done|].
    destruct (isTrailSurrogate c); [done|].
    apply (Hesc (escape c) [c] []); [simpl; lia|apply escape_length|done].
  - split; [apply IH1|]. intros c.
    destruct (isUnreserved c) eqn:Hu; [by apply Hstep|].
    intros q. rewrite encodeURIComponent_cons, Hu.
    destruct (isLeadSurrogate c).
    + destruct (isTrailSurrogate d); [|done].
      apply (Hesc _ [c; d] s); [simpl; lia|apply escape_length|done].
    + destruct (isTrailSurrogate c); [done|].
      apply (Hesc (escape c) [c] (d :: s));
        [simpl; lia|apply escape_length|done].
Qed.

Lemma encodeURIComponent_unreserved s :
  Forall (λ c, isUnreserved c = true) s → encodeURIComponent s = Some s.
Proof.
  induction 1 as [|c s Hc _ IH]; [done|].
  by rewrite encodeURIComponent_cons, Hc, IH.
Qed.

(** X5. The encoder never shortens a string, and it returns a string
    unchanged exactly when the string is made of unreserved characters
    (letters, digits and [-_.!~*'()]) only. *)
Theorem encodeURIComponent_fixpoints (s : JSString) :
  (∀ q, encodeURIComponent s = Some q → (length s <= length q)%nat)
  ∧ (encodeURIComponent s = Some s
     ↔ Forall (λ c, isUnreserved c = true) s).
Proof.
  destruct (encodeURIComponent_grows s) as [H _]. split.
  - intros q Hq. by destruct (H q Hq).
  - split.
    + intros Hs. destruct (H s Hs) as [_ Hf]. by apply Hf.
    + apply encodeURIComponent_unreserved.
Qed.

(** ** The text of a download link *)

Lemma splitOn_not_nil sep s : splitOn sep s ≠ [].
Proof.
  destruct s as [|c s]; simpl; [done|].
  destruct (c =? sep); [done|]. by destruct (splitOn sep s).
Qed.

Lemma splitOn_free sep s : sep ∉ s → splitOn sep s = [s].
Proof.
  induction s as [|c s IH]; intros Hs; [done|]. simpl.
  apply not_elem_of_cons in Hs as [Hc Hs].
  rewrite (proj2 (N.eqb_neq c sep)) by done. by rewrite IH.
Qed.

Lemma splitOn_app sep dir rest :
  splitOn sep (dir ++ sep :: rest) = splitOn sep dir ++ splitOn sep rest.
Proof.
  induction dir as [|c dir IH]; simpl.
  - by rewrite N.eqb_refl.
  - destruct (c =? sep); [by rewrite IH|]. rewrite IH.
    pose proof (splitOn_not_nil sep dir).
    by destruct (splitOn sep dir).
Qed.

(** X6. The text of a download link is the path itself when the path
    has no slash, the part after the last slash when that part is not
    empty, and the whole path when the path ends with a slash. *)
Theorem fileName_last_segment (dir name : JSString) :
  47 ∉ name →
  fileName name = name
  ∧ (name ≠ [] → fileName (dir ++ 47 :: name) = name)
  ∧ fileName (dir ++ [47]) = dir ++ [47].
Proof.
  intros Hname. unfold fileName. split; [|split].
  - rewrite splitOn_free by done. simpl. by destruct name.
  - intros Hne. rewrite splitOn_app, (splitOn_free 47 name) by done.
    rewrite last_snoc. simpl. by destruct name.
  - rewrite splitOn_app. simpl. by rewrite last_snoc.
Qed.

Lemma fileName_last_segment_witness :
  (47 ∉ js "6251 augmented.csv")
  ∧ (fileName (js "6251 augmented.csv") = js "6251 augmented.csv"
     ∧ (js "6251 augmented.csv" ≠ [] →
        fileName (js "out/csv" ++ 47 :: js "6251 augmented.csv")
        = js "6251 augmented.csv")
     ∧ fileName (js "out/csv" ++ [47]) = js "out/csv" ++ [47]).
Proof.
  assert (H : 47 ∉ js "6251 augmented.csv").
  { apply (bool_decide_unpack _). vm_compute. exact I. }
  split; [exact H|].
  exact (fileName_last_segment (js "out/csv") (js "6251 augmented.csv") H).
Defined.

(** ** Field labels *)

Lemma fieldLookup_snoc fieldOptions field :
  fieldLookup (fieldOptions ++ [field])
  = <[FieldOption.id field := FieldOption.label field]>
      (fieldLookup fieldOptions).
Proof. unfold fieldLookup. by rewrite foldl_snoc. Qed.

Lemma fieldLookup_absent fieldOptions (fieldId : JSString) :
  fieldId ∉ FieldOption.id <$> fieldOptions →
  fieldLookup fieldOptions !! fieldId = None.
Proof.
  induction fieldOptions as [|field fieldOptions IH] using rev_ind;
    intros Hid; [done|].
  rewrite fmap_app, not_elem_of_app in Hid. destruct Hid as [Hid Hf].
  rewrite fieldLookup_snoc, lookup_insert_ne; [by apply IH|].
  intros E. apply Hf. rewrite <- E. simpl. left.
Qed.

Lemma fieldLookup_app_absent before after (fieldId : JSString) :
  fieldId ∉ FieldOption.id <$> after →
  fieldLookup (before ++ after) !! fieldId = fieldLookup before !! fieldId.
Proof.
  induction after as [|field after IH] using rev_ind; intros Hid.
  - by rewrite app_nil_r.
  - rewrite fmap_app, not_elem_of_app in Hid. destruct Hid as [Hid Hf].
    rewrite app_assoc, fieldLookup_snoc, lookup_insert_ne; [by apply IH|].
    intros E. apply Hf. rewrite <- E. simpl. left.
Qed.

(** X7. A field id the catalogue does not have is rendered as itself;
    one it has is rendered with the label of its last entry in the
    catalogue, be that label empty. *)
Theorem renderFieldLabel_last_entry (before after : list FieldOption.t)
    (field : FieldOption.t) (fieldId : JSString) :
  FieldOption.id field ∉ FieldOption.id <$> after →
  renderFieldLabel (before ++ field :: after) (FieldOption.id field)
  = FieldOption.label field
  ∧ (fieldId ∉ FieldOption.id <$> before ++ field :: after →
     renderFieldLabel (before ++ field :: after) fieldId = fieldId).
Proof.
  intros Hafter. unfold renderFieldLabel. split.
  - rewrite (app_assoc before [field] after : before ++ field :: after = _)
      by done.
    rewrite fieldLookup_app_absent by done.
    by rewrite fieldLookup_snoc, lookup_insert_eq.
  - intros Hid. by rewrite fieldLookup_absent.
Qed.

Lemma renderFieldLabel_last_entry_witness :
  let old := {| FieldOption.id := js "name"; FieldOption.label := js "Name" |} in
  let new := {| FieldOption.id := js "name"; FieldOption.label := js "Club" |} in
  let other := {| FieldOption.id := js "id"; FieldOption.label := js "ID" |} in
  (FieldOption.id new ∉ FieldOption.id <$> [other])
  ∧ (renderFieldLabel ([old] ++ new :: [other]) (FieldOption.id new)
     = FieldOption.label new
     ∧ (js "stadium" ∉ FieldOption.id <$> [old] ++ new :: [other] →
        renderFieldLabel ([old] ++ new :: [other]) (js "stadium")
        = js "stadium")).
Proof.
  intros old new other.
  assert (H : FieldOption.id new ∉ FieldOption.id <$> [other]).
  { apply (bool_decide_unpack _). vm_compute. exact I. }
  split; [exact H|].
  exact (renderFieldLabel_last_entry [old] [other] new (js "stadium") H).
Defined.

(** ** The column selection *)

Lemma filter_other_absent (fieldId : JSString) (l : list JSString) :
  fieldId ∉ l → filter (λ id, id ≠ fieldId) l = l.
Proof.
  induction l as [|x l IH]; intros Hl; [done|].
  apply not_elem_of_cons in Hl as [Hx Hl].
  rewrite filter_cons_True by done. by rewrite IH.
Qed.

(** X8. A toggle flips whether its field is selected and changes that of
    no other field; every check box but the toggled one shows what it
    showed. *)
Theorem toggleField_flips_one (fieldId : JSString) (st : State) :
  (fieldId ∈ selectedFields (toggleField fieldId st)
   ↔ fieldId ∉ selectedFields st)
  ∧ (∀ id, id ≠ fieldId →
           id ∈ selectedFields (toggleField fieldId st)
           ↔ id ∈ selectedFields st)
  ∧ fieldOptions (toggleField fieldId st) = fieldOptions st
  ∧ filter (λ box, box.1 ≠ fieldId) (checkboxes (toggleField fieldId st))
    = filter (λ box, box.1 ≠ fieldId) (checkboxes st).
Proof.
  assert (Hself : fieldId ∈ selectedFields (toggleField fieldId st)
                  ↔ fieldId ∉ selectedFields st).
  { unfold toggleField. cbn [selectedFields setSelectedFields].
    case_bool_decide as Hin.
    - rewrite list_elem_of_filter. split; [by intros [? _]|done].
    - rewrite elem_of_app, list_elem_of_singleton. split; [done|by right]. }
  assert (Hother : ∀ id, id ≠ fieldId →
                         id ∈ selectedFields (toggleField fieldId st)
                         ↔ id ∈ selectedFields st).
  { intros id Hid. unfold toggleField. cbn [selectedFields setSelectedFields].
    case_bool_decide as Hin.
    - rewrite list_elem_of_filter. split; [by intros [_ ?]|done].
    - rewrite elem_of_app, list_elem_of_singleton. split; [|by left].
      by intros [?|?]. }
  split; [done|]. split; [done|]. split; [done|].
  unfold checkboxes. change (fieldOptions (toggleField fieldId st))
    with (fieldOptions st).
  induction (fieldOptions st) as [|field fields IH]; [done|].
  rewrite !fmap_cons, !filter_cons. cbn [fst].
  destruct (decide (FieldOption.id field ≠ fieldId)) as [Hid|Hid];
    [|exact IH].
  rewrite IH. do 2 f_equal. apply bool_decide_ext. by apply Hother.
Qed.

Lemma toggle_back (fieldId : JSString) (l : list JSString) :
  NoDup l → fieldId ∈ l → filter (λ id, id ≠ fieldId) l ++ [fieldId] ≡ₚ l.
Proof.
  induction 1 as [|x l Hx Hl IH]; intros Hin; [by apply elem_of_nil in Hin|].
  destruct (decide (x = fieldId)) as [->|Hne].
  - rewrite filter_cons_False by (by intros ?).
    rewrite filter_other_absent by done.
    symmetry. apply Permutation_cons_append.
  - rewrite filter_cons_True by done.
    apply elem_of_cons in Hin as [?|Hin]; [by subst|].
    simpl. by rewrite IH.
Qed.

(** X9. On a selection without duplicates a toggle leaves no
    duplicates; toggling the same field twice gives the same fields
    again, in the same order when the field was not selected and with
    the field moved to the end when it was. *)
Theorem toggleField_twice (fieldId : JSString) (st : State) :
  NoDup (selectedFields st) →
  NoDup (selectedFields (toggleField fieldId st))
  ∧ selectedFields (toggleField fieldId (toggleField fieldId st))
    ≡ₚ selectedFields st
  ∧ (fieldId ∉ selectedFields st →
     selectedFields (toggleField fieldId (toggleField fieldId st))
     = selectedFields st)
  ∧ (fieldId ∈ selectedFields st →
     selectedFields (toggleField fieldId (toggleField fieldId st))
     = filter (λ id, id ≠ fieldId) (selectedFields st) ++ [fieldId]).
Proof.
  intros Hnd.
  assert (Habsent : fieldId ∉ selectedFields st →
            selectedFields (toggleField fieldId (toggleField fieldId st))
            = selectedFields st).
  { intros Hin. unfold toggleField. cbn [selectedFields setSelectedFields].
    rewrite (bool_decide_eq_false_2 (fieldId ∈ selectedFields st)) by done.
    rewrite bool_decide_eq_true_2
      by (rewrite elem_of_app, list_elem_of_singleton; by right).
    rewrite filter_app, filter_other_absent by done.
    rewrite filter_cons_False by (by intros ?). by rewrite app_nil_r. }
  assert (Hpresent : fieldId ∈ selectedFields st →
            selectedFields (toggleField fieldId (toggleField fieldId st))
            = filter (λ id, id ≠ fieldId) (selectedFields st) ++ [fieldId]).
  { intros Hin. unfold toggleField. cbn [selectedFields setSelectedFields].
    rewrite (bool_decide_eq_true_2 (fieldId ∈ selectedFields st)) by done.
    rewrite bool_decide_eq_false_2; [done|].
    rewrite list_elem_of_filter. by intros [? _]. }
  split; [|split; [|by split]].
  - unfold toggleField. cbn [selectedFields setSelectedFields].
    case_bool_decide as Hin; [by apply NoDup_filter|].
    apply NoDup_app. split; [done|]. split; [|apply NoDup_singleton].
    intros x Hx ->%list_elem_of_singleton. done.
  - destruct (decide (fieldId ∈ selectedFields st)) as [Hin|Hin].
    + rewrite Hpresent by done. by apply toggle_back.
    + by rewrite Habsent.
Qed.

Lemma toggleField_twice_witness :
  let st := run None [Settle 0 catalogue] (mount None) in
  NoDup (selectedFields st)
  ∧ (NoDup (selectedFields (toggleField (js "id") st))
     ∧ selectedFields (toggleField (js "id") (toggleField (js "id") st))
       ≡ₚ selectedFields st
     ∧ (js "id" ∉ selectedFields st →
        selectedFields (toggleField (js "id") (toggleField (js "id") st))
        = selectedFields st)
     ∧ (js "id" ∈ selectedFields st →
        selectedFields (toggleField (js "id") (toggleField (js "id") st))
        = filter (λ id, id ≠ js "id") (selectedFields st) ++ [js "id"])).
Proof.
  intros st.
  assert (H : NoDup (selectedFields st)).
  { apply (bool_decide_unpack _). vm_compute. exact I. }
  split; [exact H|]. exact (toggleField_twice (js "id") st H).
Defined.

Example toggleField_moves_to_the_end :
  let st := run None [Settle 0 catalogue] (mount None) in
  selectedFields st = [js "id"; js "name"]
  ∧ selectedFields (toggleField (js "id") (toggleField (js "id") st))
    = [js "name"; js "id"].
Proof. by vm_compute. Qed.

(** ** What the stream leaves alone *)

Lemma closeCurrent_teamInput st : teamInput (closeCurrent st) = teamInput st.
Proof. unfold closeCurrent, close. by destruct (eventSourceRef st). Qed.
Lemma closeCurrent_seasonId st : seasonId (closeCurrent st) = seasonId st.
Proof. unfold closeCurrent, close. by destruct (eventSourceRef st). Qed.
Lemma closeCurrent_fieldOptions st :
  fieldOptions (closeCurrent st) = fieldOptions st.
Proof. unfold closeCurrent, close. by destruct (eventSourceRef st). Qed.
Lemma closeCurrent_defaultFields st :
  defaultFields (closeCurrent st) = defaultFields st.
Proof. unfold closeCurrent, close. by destruct (eventSourceRef st). Qed.
Lemma closeCurrent_selectedFields st :
  selectedFields (closeCurrent st) = selectedFields st.
Proof. unfold closeCurrent, close. by destruct (eventSourceRef st). Qed.
Lemma closeCurrent_jobId st : jobId (closeCurrent st) = jobId st.
Proof. unfold closeCurrent, close. by destruct (eventSourceRef st). Qed.
Lemma closeCurrent_console st : console (closeCurrent st) = console st.
Proof. unfold closeCurrent, close. by destruct (eventSourceRef st). Qed.
Lemma closeCurrent_sources_length st :
  length (sources (closeCurrent st)) = length (sources st).
Proof. apply closeCurrent_fields. Qed.

#[local] Hint Rewrite closeCurrent_teamInput closeCurrent_seasonId
  closeCurrent_fieldOptions closeCurrent_defaultFields
  closeCurrent_selectedFields closeCurrent_jobId closeCurrent_console
  closeCurrent_sources_length : fields.

Lemma isOpen_closeCurrent s st :
  isOpen s (closeCurrent st) = true → isOpen s st = true.
Proof.
  unfold closeCurrent. destruct (eventSourceRef st) as [r|]; [|done].
  rewrite isOpen_close. by intros [_ ?]%andb_prop.
Qed.

Lemma streamFrame_refl st : streamFrame st st.
Proof. by repeat split. Qed.

Lemma handleStreamEvent_streamFrame clock event st :
  streamFrame st (handleStreamEvent clock event st).
Proof.
  destruct (tag event) as [E|E|E|E|E1 E2 E3 E4].
  - rewrite handleStreamEvent_status by done. by repeat split.
  - rewrite handleStreamEvent_log by done. by repeat split.
  - rewrite handleStreamEvent_error by done. unfold streamFrame. fields.
    repeat split. intros s Hs. apply isOpen_closeCurrent in Hs. exact Hs.
  - rewrite handleStreamEvent_result by done. unfold streamFrame. fields.
    repeat split. intros s Hs. apply isOpen_closeCurrent in Hs. exact Hs.
  - rewrite handleStreamEvent_other by done. apply streamFrame_refl.
Qed.

Lemma onerror_streamFrame s st : streamFrame st (onerror s st).
Proof.
  assert (H : ∀ s', isOpen s' (onerror s st) = true → isOpen s' st = true).
  { intros s' Hs'.
    rewrite (isOpen_frame s' (close s st)) in Hs'.
    - rewrite isOpen_close in Hs'. by apply andb_prop in Hs' as [_ ?].
    - unfold onerror. by destruct (sources st !! s ≫= EventSource.result). }
  unfold streamFrame, onerror, close in *.
  destruct (sources st !! s ≫= EventSource.result); cbn; repeat split;
    try done; apply length_alter.
Qed.

(** X10. Whatever the stream delivers - a message of any kind, well
    formed or not, or a transport error - the form, the column
    selection, the job id, the requests issued and the pending fetches
    stay as they are, and no event source is created or reopened. *)
Theorem stream_events_leave_the_form (env : option JSString) (a : Action)
    (st : State) :
  isStreamAction a = true → streamFrame st (dispatch env a st).
Proof.
  intros Ha. destruct a as [| | | | | | | |s clock evt|s|]; try done;
    cbn [dispatch]; destruct (isOpen s st); try apply streamFrame_refl.
  - unfold onmessage. destruct (Boolean (MessageEvent.data evt));
      [|apply streamFrame_refl]. simpl.
    destruct (MessageEvent.parsed evt) as [event|].
    + apply handleStreamEvent_streamFrame.
    + by repeat split.
  - apply onerror_streamFrame.
Qed.

Lemma stream_events_leave_the_form_witness :
  let st := run None firstJobStreaming (mount None) in
  let a := StreamMessage 0 sampleClock (resultMessage sampleResult) in
  isStreamAction a = true ∧ streamFrame st (dispatch None a st).
Proof.
  intros st a. split; [reflexivity|].
  exact (stream_events_leave_the_form None a st eq_refl).
Defined.

(** ** Requests and event sources *)

Lemma onSubmit_resume_frame env res r st :
  let st' := onSubmit_resume env res r st in
  network st' = network st ∧ inflight st' = inflight st
  ∧ teamInput st' = teamInput st ∧ seasonId st' = seasonId st
  ∧ fieldOptions st' = fieldOptions st
  ∧ defaultFields st' = defaultFields st
  ∧ selectedFields st' = selectedFields st
  ∧ logs st' = logs st
  ∧ (length (sources st') <= S (length (sources st)))%nat.
Proof.
  unfold onSubmit_resume, onSubmit_catch, startStream.
  destruct r as [response|err]; [|cbn; repeat split; lia].
  destruct (Response.ok response); simpl; [|cbn; repeat split; lia].
  destruct (Response.json response) as [payload|err];
    [|cbn; repeat split; lia].
  fields. repeat split. cbn. rewrite length_app. fields. simpl. lia.
Qed.

Lemma dispatch_network env a st :
  network (dispatch env a st) = network st ++ posted env a st.
Proof.
  destruct a as [k r|v|v|f| | | | |s clock evt|s|]; cbn [dispatch posted];
    try (by rewrite app_nil_r).
  - rewrite app_nil_r. destruct (inflight st !! k) as [[|res]|]; [| |done].
    + unfold fetchFields_resume, fetchFields_catch.
      destruct r as [response|err]; [|done].
      destruct (Response.ok response); [|done]. simpl.
      by destruct (Response.json response).
    + by destruct (onSubmit_resume_frame env res r
                     (withInflight (delete k (inflight st)) st)) as [-> _].
  - unfold onSubmit. case_bool_decide; [by rewrite app_nil_r|].
    unfold resetJobState. by fields.
  - rewrite app_nil_r. destruct (isOpen s st); [|done]. unfold onmessage.
    destruct (Boolean (MessageEvent.data evt)); [|done]. simpl.
    destruct (MessageEvent.parsed evt) as [event|]; [|done].
    apply handleStreamEvent_streamFrame.
  - rewrite app_nil_r. destruct (isOpen s st); [|done].
    apply onerror_streamFrame.
  - rewrite app_nil_r. unfold unmount. by fields.
Qed.

Lemma runRequest_isRunRequest env st :
  parseTeamIds (teamInput st) ≠ [] → isRunRequest env (runRequest env st).
Proof.
  intros Hne. unfold runRequest, isRunRequest. split; [done|].
  split; [done|]. split; [apply parseTeamIds_tokens|].
  cbv zeta. destruct (trim (seasonId st)) as [|c season] eqn:E; [done|].
  simpl. split; [done|]. rewrite <- E. apply trim_idemp.
Qed.

(** X11. The requests a page has issued are the catalogue request of its
    mount, once and first, and after it run requests only: each to the
    run endpoint, with at least one id, every id clean, and a season
    that is absent or trimmed and not empty. *)
Theorem requests_are_well_formed (env : option JSString) (st : State) :
  reachable env st →
  ∃ runs, network st = GET (API_BASE env ++ js "/api/fields") :: runs
          ∧ Forall (isRunRequest env) runs.
Proof.
  induction 1 as [|st a _ (runs & E & Hruns) _].
  - exists []. by split.
  - rewrite dispatch_network, E. unfold posted.
    destruct a; try (exists runs; by rewrite app_nil_r).
    case_bool_decide as Hparse; [exists runs; by rewrite app_nil_r|].
    exists (runs ++ [runRequest env st]). split; [done|].
    apply Forall_app. split; [done|]. constructor; [|done].
    apply runRequest_isRunRequest. by destruct (parseTeamIds (teamInput st)).
Qed.

Lemma requests_are_well_formed_witness :
  let st := run None secondJobStreaming (mount None) in
  reachable None st
  ∧ ∃ runs, network st = GET (API_BASE None ++ js "/api/fields") :: runs
            ∧ Forall (isRunRequest None) runs.
Proof.
  intros st.
  assert (H : reachable None st).
  { apply ui_reachable_reachable, job_reachable_ui_reachable.
    exact secondJobStreaming_reachable. }
  split; [exact H|]. exact (requests_are_well_formed None st H).
Defined.

Lemma dispatch_traffic env a st :
  (length (sources (dispatch env a st)) + runsPending (dispatch env a st)
   <= length (sources st) + runsPending st + length (posted env a st))%nat.
Proof.
  destruct a as [k r|v|v|f| | | | |s clock evt|s|]; cbn [dispatch posted];
    try (unfold runsPending; simpl; lia).
  - destruct (inflight st !! k) as [[|res]|] eqn:Hk; [| |unfold runsPending; simpl; lia].
    + destruct (fetchFields_resume_frame r
                  (withInflight (delete k (inflight st)) st))
        as (Hs & _ & Hi & _).
      unfold runsPending. rewrite Hs, Hi. cbn.
      rewrite (filter_delete_False isAwaitRun _ _ AwaitFields) by done. lia.
    + pose proof (filter_delete_True isAwaitRun _ _ _ Hk eq_refl) as Hlen.
      destruct (onSubmit_resume_frame env res r
                  (withInflight (delete k (inflight st)) st))
        as (_ & Hi & _ & _ & _ & _ & _ & _ & Hs).
      unfold runsPending in *. rewrite Hi. cbn in *. lia.
  - unfold onSubmit, runsPending. case_bool_decide; [unfold runsPending; simpl; lia|].
    unfold resetJobState. fields. rewrite filter_app, length_app. simpl. lia.
  - destruct (isOpen s st); [|unfold runsPending; simpl; lia]. unfold onmessage.
    destruct (Boolean (MessageEvent.data evt)); [|unfold runsPending; simpl; lia]. simpl.
    destruct (MessageEvent.parsed evt) as [event|]; [|unfold runsPending; simpl; lia].
    destruct (handleStreamEvent_streamFrame clock event st)
      as (_ & _ & _ & _ & _ & _ & _ & Hi & Hs & _).
    unfold runsPending. rewrite Hi, Hs. lia.
  - destruct (isOpen s st); [|unfold runsPending; simpl; lia].
    destruct (onerror_streamFrame s st)
      as (_ & _ & _ & _ & _ & _ & _ & Hi & Hs & _).
    unfold runsPending. rewrite Hi, Hs. lia.
  - unfold unmount, runsPending. fields. lia.
Qed.

(** X12. An event source is only ever created for a run request that
    was issued: counting the run requests still pending, there are never
    more event sources than run requests. *)
Theorem streams_follow_requests (env : option JSString) (st : State) :
  reachable env st →
  (length (sources st) + runsPending st + 1 <= length (network st))%nat.
Proof.
  induction 1 as [|st a _ IH _]; [simpl; lia|].
  pose proof (dispatch_traffic env a st). rewrite dispatch_network, length_app.
  lia.
Qed.

Lemma streams_follow_requests_witness :
  let st := run None secondJobStreaming (mount None) in
  reachable None st
  ∧ (length (sources st) + runsPending st + 1 <= length (network st))%nat.
Proof.
  intros st.
  assert (H : reachable None st).
  { apply ui_reachable_reachable, job_reachable_ui_reachable.
    exact secondJobStreaming_reachable. }
  split; [exact H|]. exact (streams_follow_requests None st H).
Defined.

(** ** The stream of the job shown *)

Lemma close_keeps r st s e :
  sources (close r st) !! s = Some e → EventSource.closed e = false →
  sources st !! s = Some e.
Proof.
  unfold close. cbn [sources withSources]. intros Hs He.
  destruct (decide (r = s)) as [->|Hne].
  - rewrite list_lookup_alter_eq in Hs.
    destruct (sources st !! s) as [e0|]; [|done].
    injection Hs as <-. done.
  - by rewrite list_lookup_alter_ne in Hs.
Qed.

Lemma closeCurrent_keeps st s e :
  sources (closeCurrent st) !! s = Some e → EventSource.closed e = false →
  sources st !! s = Some e.
Proof.
  unfold closeCurrent. destruct (eventSourceRef st); [|done].
  apply close_keeps.
Qed.

Lemma liveMatchesJob_keeps env st st' :
  (∀ s e, sources st' !! s = Some e → EventSource.closed e = false →
          sources st !! s = Some e) →
  jobId st' = jobId st → liveMatchesJob env st → liveMatchesJob env st'.
Proof.
  intros Hk Hj H s e Hs He. rewrite Hj.
  apply (H s); [by apply Hk|done].
Qed.

Lemma noneOpen_liveMatchesJob env st : noneOpen st → liveMatchesJob env st.
Proof.
  intros Hn s e Hs He. specialize (Hn s). unfold isOpen in Hn.
  rewrite Hs, He in Hn. done.
Qed.

Lemma dispatch_liveMatchesJob env a st :
  oneLive st → liveMatchesJob env st →
  liveMatchesJob env (dispatch env a st).
Proof.
  intros Hl H.
  destruct a as [k r|v|v|f| | | | |s clock evt|s|]; cbn [dispatch];
    try by apply (liveMatchesJob_keeps env st).
  - destruct (inflight st !! k) as [[|res]|]; [| |done].
    + apply (liveMatchesJob_keeps env st); [|by unfold fetchFields_resume;
        destruct r as [response|]; [destruct (Response.ok response);
          [simpl; destruct (Response.json response)|]|]|done].
      destruct (fetchFields_resume_frame r
                  (withInflight (delete k (inflight st)) st)) as [-> _].
      done.
    + unfold onSubmit_resume.
      destruct r as [response|err];
        [|by apply (liveMatchesJob_keeps env st)].
      destruct (Response.ok response); simpl;
        [|by apply (liveMatchesJob_keeps env st)].
      destruct (Response.json response) as [payload|err];
        [|by apply (liveMatchesJob_keeps env st)].
      set (st1 := setJobStatus (js "running")
                    (setJobId (Payload.job_id payload)
                       (withInflight (delete k (inflight st)) st))).
      assert (Hl1 : oneLive st1) by (by apply (oneLive_frame st)).
      intros s e Hs He. unfold startStream in *.
      cbn [sources jobId withSources assignEventSourceRef] in *.
      rewrite closeCurrent_jobId.
      pose proof (closeCurrent_noneOpen st1 Hl1 s) as Hclosed.
      unfold isOpen in Hclosed.
      destruct (decide (s < length (sources (closeCurrent st1)))%nat).
      * rewrite lookup_app_l in Hs by done. rewrite Hs, He in Hclosed. done.
      * rewrite lookup_app_r in Hs by lia.
        destruct (s - length (sources (closeCurrent st1)))%nat; [|done].
        by injection Hs as <-.
  - unfold onSubmit. case_bool_decide; [by apply (liveMatchesJob_keeps env st)|].
    apply noneOpen_liveMatchesJob.
    apply (noneOpen_frame (resetJobState st)); [done|].
    by apply resetJobState_noneOpen.
  - destruct (isOpen s st); [|done]. unfold onmessage.
    destruct (Boolean (MessageEvent.data evt)); [|done]. simpl.
    destruct (MessageEvent.parsed evt) as [event|];
      [|by apply (liveMatchesJob_keeps env st)].
    destruct (tag event) as [E|E|E|E|E1 E2 E3 E4].
    + rewrite handleStreamEvent_status by done.
      by apply (liveMatchesJob_keeps env st).
    + rewrite handleStreamEvent_log by done.
      by apply (liveMatchesJob_keeps env st).
    + rewrite handleStreamEvent_error by done.
      apply (liveMatchesJob_keeps env st); [|by fields|done].
      intros s' e Hs He. by apply closeCurrent_keeps in Hs.
    + rewrite handleStreamEvent_result by done.
      apply (liveMatchesJob_keeps env st); [|by fields|done].
      intros s' e Hs He. by apply closeCurrent_keeps in Hs.
    + by rewrite handleStreamEvent_other.
  - destruct (isOpen s st); [|done].
    apply (liveMatchesJob_keeps env st); [|apply onerror_streamFrame|done].
    intros s' e Hs He. apply (close_keeps s); [|done].
    unfold onerror in Hs.
    by destruct (sources st !! s ≫= EventSource.result).
  - apply (liveMatchesJob_keeps env st); [|by unfold unmount; fields|done].
    apply closeCurrent_keeps.
Qed.

(** X13. The stream that is open is the stream of the job shown: in
    every reachable state the URL of an open event source is the stream
    URL of the page's current job id. *)
Theorem open_stream_is_of_the_job_shown (env : option JSString)
    (st : State) :
  reachable env st →
  ∀ s e, sources st !! s = Some e → EventSource.closed e = false →
         EventSource.url e = streamUrl env (jobId st).
Proof.
  intros Hreach. change (liveMatchesJob env st).
  induction Hreach as [|st a Hreach IH _].
  - apply noneOpen_liveMatchesJob, mount_noneOpen.
  - apply dispatch_liveMatchesJob; [|done]. by apply (reachable_oneLive env).
Qed.

Lemma open_stream_is_of_the_job_shown_witness :
  let st := run None secondJobStreaming (mount None) in
  reachable None st
  ∧ ∀ s e, sources st !! s = Some e → EventSource.closed e = false →
           EventSource.url e = streamUrl None (jobId st).
Proof.
  intros st.
  assert (H : reachable None st).
  { apply ui_reachable_reachable, job_reachable_ui_reachable.
    exact secondJobStreaming_reachable. }
  split; [exact H|]. exact (open_stream_is_of_the_job_shown None st H).
Defined.

Example second_stream_url :
  let st := run None secondJobStreaming (mount None) in
  EventSource.url <$> sources st
  = [js "http://localhost:8080/api/jobs/abc123/stream";
     js "http://localhost:8080/api/jobs/def456/stream"]
  ∧ jobId st = Some (js "def456").
Proof. by vm_compute. Qed.

(** ** The log console *)

Lemma logLine_bracketed clock event : bracketed (logLine clock event).
Proof. reflexivity. Qed.

(** What one callback does to the log: an accepted submission empties
    it, a [log] event adds its line, everything else keeps it. *)
Lemma dispatch_logs env a st :
  (a = Submit ∧ logs (dispatch env a st) = [])
  ∨ logs (dispatch env a st) = logs st
  ∨ ∃ clock event,
      logs (dispatch env a st) = logs st ++ [logLine clock event].
Proof.
  destruct a as [k r|v|v|f| | | | |s clock evt|s|]; cbn [dispatch];
    try by (right; left).
  - right; left. destruct (inflight st !! k) as [[|res]|]; [| |done].
    + unfold fetchFields_resume. destruct r as [response|err]; [|done].
      destruct (Response.ok response); [|done]. simpl.
      by destruct (Response.json response).
    + by destruct (onSubmit_resume_frame env res r
                     (withInflight (delete k (inflight st)) st))
        as (_ & _ & _ & _ & _ & _ & _ & -> & _).
  - unfold onSubmit. case_bool_decide; [by right; left|by left].
  - destruct (isOpen s st); [|by right; left]. unfold onmessage.
    destruct (Boolean (MessageEvent.data evt)); [|by right; left]. simpl.
    destruct (MessageEvent.parsed evt) as [event|]; [|by right; left].
    destruct (tag event) as [E|E|E|E|E1 E2 E3 E4].
    + rewrite handleStreamEvent_status by done. by right; left.
    + rewrite handleStreamEvent_log by done. right; right. by exists clock, event.
    + rewrite handleStreamEvent_error by done. right; left. by fields.
    + rewrite handleStreamEvent_result by done. right; left. by fields.
    + rewrite handleStreamEvent_other by done. by right; left.
  - right; left. destruct (isOpen s st); [|done]. apply onerror_fields.
  - right; left. unfold unmount. by fields.
Qed.

Lemma join_nil sep parts :
  Forall (λ part, part ≠ []) parts → join sep parts = [] → parts = [].
Proof.
  intros Hparts Hjoin. destruct parts as [|part rest]; [done|].
  apply Forall_cons in Hparts as [Hpart _]. simpl in Hjoin.
  destruct rest; [done|]. by destruct part.
Qed.

Lemma reachable_logs_bracketed env st :
  reachable env st → Forall bracketed (logs st).
Proof.
  induction 1 as [|st a _ IH _]; [by constructor|].
  destruct (dispatch_logs env a st) as [[_ ->]|[->|(clock & event & ->)]];
    [by constructor|done|].
  apply Forall_app. split; [done|]. constructor; [|by constructor].
  apply logLine_bracketed.
Qed.

(** X14. Between submissions the log is append-only: after any sequence
    of callbacks none of which is a submission, the log shown before is
    a prefix of the log shown after, at most one line was added per
    callback, and every added line starts with an opening bracket. *)
Theorem log_is_append_only (env : option JSString) (actions : list Action)
    (st : State) :
  Forall (λ a, isSubmit a = false) actions →
  ∃ added, logs (run env actions st) = logs st ++ added
           ∧ (length added <= length actions)%nat
           ∧ Forall bracketed added.
Proof.
  revert st. induction actions as [|a rest IH]; intros st Hall.
  - exists []. by rewrite app_nil_r.
  - apply Forall_cons in Hall as [Ha Hrest].
    destruct (IH (dispatch env a st) Hrest) as (added & Hlogs & Hlen & Hadded).
    change (run env (a :: rest) st) with (run env rest (dispatch env a st)).
    rewrite Hlogs.
    destruct (dispatch_logs env a st)
      as [[-> _]|[->|(clock & event & ->)]]; [done| |].
    + exists added. repeat split; [simpl; lia|done].
    + exists (logLine clock event :: added). rewrite <- app_assoc.
      repeat split; [simpl; lia|].
      constructor; [apply logLine_bracketed|done].
Qed.

Lemma log_is_append_only_witness :
  let st := run None firstJobStreaming (mount None) in
  let actions := [deliver 0 (sampleClock, statusMessage "running");
                  deliver 0 (sampleClock, logMessage "Fetching club 6251");
                  SelectAll;
                  deliver 0 (sampleClock, logMessage "Done")] in
  Forall (λ a, isSubmit a = false) actions
  ∧ ∃ added, logs (run None actions st) = logs st ++ added
             ∧ (length added <= length actions)%nat
             ∧ Forall bracketed added.
Proof.
  intros st actions.
  assert (H : Forall (λ a, isSubmit a = false) actions)
    by (by repeat constructor).
  split; [exact H|]. exact (log_is_append_only None actions st H).
Defined.

Example log_lines_of_a_job :
  logs (run None
          (firstJobStreaming
           ++ [deliver 0 (sampleClock, logMessage "Fetching club 6251");
               deliver 0 (sampleClock, logMessage "Done")])
          (mount None))
  = [js "[12:00:00] Fetching club 6251"; js "[12:00:00] Done"].
Proof. by vm_compute. Qed.

(** X15. In every reachable state each line of the log starts with an
    opening bracket, and the console shows its placeholder exactly when
    the log has no line. *)
Theorem placeholder_iff_no_log_line (env : option JSString) (st : State) :
  reachable env st →
  Forall bracketed (logs st)
  ∧ (showsPlaceholder st = true ↔ logs st = []).
Proof.
  intros Hreach. pose proof (reachable_logs_bracketed env st Hreach) as Hb.
  split; [done|]. unfold showsPlaceholder, formattedLogs. split.
  - intros Hshow. apply (join_nil [10]).
    + eapply Forall_impl; [exact Hb|]. by intros [|c line].
    + by destruct (join [10] (logs st)).
  - by intros ->.
Qed.

Lemma placeholder_iff_no_log_line_witness :
  let st := run None secondJobStreaming (mount None) in
  reachable None st
  ∧ Forall bracketed (logs st)
  ∧ (showsPlaceholder st = true ↔ logs st = []).
Proof.
  intros st.
  assert (H : reachable None st).
  { apply ui_reachable_reachable, job_reachable_ui_reachable.
    exact secondJobStreaming_reachable. }
  split; [exact H|]. exact (placeholder_iff_no_log_line None st H).
Defined.

(** Outside the reachable states a log of one empty line would show the
    placeholder. *)
Example placeholder_with_an_empty_line :
  showsPlaceholder (setLogs [[]] (mount None)) = true.
Proof. reflexivity. Qed.

(** ** The submit button *)

Lemma idle_frame st st' :
  inflight st' = inflight st → sources st' = sources st → idle st' → idle st.
Proof.
  intros Hi Hs [H0 Hn]. split.
  - unfold runsPending in *. by rewrite <- Hi.
  - by apply (noneOpen_frame st').
Qed.

(** While the page stays mounted, a callback that leaves it idle leaves
    the button enabled. *)
Lemma dispatch_idle env a st :
  oneLive st → a ≠ Unmount →
  (idle st → isSubmitting st = false) →
  idle (dispatch env a st) → isSubmitting (dispatch env a st) = false.
Proof.
  intros Hl Ha H.
  destruct a as [k r|v|v|f| | | | |s clock evt|s|]; cbn [dispatch];
    try (by intros Hidle; apply H, (idle_frame _ _ eq_refl eq_refl Hidle)).
  - destruct (inflight st !! k) as [[|res]|] eqn:Hk; [| |done].
    + set (st0 := withInflight (delete k (inflight st)) st).
      destruct (fetchFields_resume_frame r st0)
        as (Hs & _ & Hi & Hb & _). rewrite Hb.
      intros [H0 Hn]. apply H. split.
      * unfold runsPending in *. rewrite Hi in H0. cbn in H0.
        by rewrite (filter_delete_False isAwaitRun _ _ AwaitFields) in H0.
      * by apply (noneOpen_frame _ _ (eq_sym Hs)).
    + unfold onSubmit_resume. destruct r as [response|err]; [|done].
      destruct (Response.ok response); simpl; [|done].
      destruct (Response.json response) as [payload|err]; [|done].
      intros [_ Hn].
      set (st1 := setJobStatus (js "running")
                    (setJobId (Payload.job_id payload)
                       (withInflight (delete k (inflight st)) st))) in *.
      assert (Hl1 : oneLive st1) by (by apply (oneLive_frame st)).
      specialize (Hn (length (sources st1))).
      rewrite startStream_isOpen in Hn by done.
      by rewrite bool_decide_eq_true_2 in Hn.
  - unfold onSubmit. case_bool_decide as Hparse.
    + intros Hidle. apply H, (idle_frame _ _ eq_refl eq_refl Hidle).
    + intros [Hrun _]. unfold runsPending, resetJobState in Hrun.
      revert Hrun. fields. rewrite filter_app, length_app. simpl. lia.
  - destruct (isOpen s st); [|done]. unfold onmessage.
    destruct (Boolean (MessageEvent.data evt)); [|done]. simpl.
    destruct (MessageEvent.parsed evt) as [event|];
      [|by intros Hidle; apply H, (idle_frame _ _ eq_refl eq_refl Hidle)].
    destruct (tag event) as [E|E|E|E|E1 E2 E3 E4].
    + rewrite handleStreamEvent_status by done.
      intros Hidle; apply H, (idle_frame _ _ eq_refl eq_refl Hidle).
    + rewrite handleStreamEvent_log by done.
      intros Hidle; apply H, (idle_frame _ _ eq_refl eq_refl Hidle).
    + by rewrite handleStreamEvent_error by done.
    + by rewrite handleStreamEvent_result by done.
    + by rewrite handleStreamEvent_other.
  - destruct (isOpen s st); [|done]. intros _. apply onerror_fields.
  - done.
Qed.

Lemma mounted_ui_reachable env st :
  reachable_by env mounted st → ui_reachable env st.
Proof.
  apply reachable_by_weaken. intros a st' Ha.
  by apply andb_prop in Ha as [Ha _].
Qed.

(** X16. While the page stays mounted and is driven through its form,
    the submit button ([disabled={isSubmitting}]) is enabled exactly
    when no run request is pending and no stream is open. *)
Theorem button_enabled_iff_idle (env : option JSString) (st : State) :
  reachable_by env mounted st →
  (isSubmitting st = false ↔ runsPending st = 0%nat ∧ noneOpen st).
Proof.
  intros Hreach. split.
  - apply (Stage_busy_submitting formError).
    by apply (ui_reachable_Stage env), mounted_ui_reachable.
  - change (idle st → isSubmitting st = false).
    induction Hreach as [|st a Hreach IH Ha]; [done|].
    apply dispatch_idle; [|by destruct a|done].
    by apply (reachable_oneLive env), ui_reachable_reachable,
             mounted_ui_reachable.
Qed.

Lemma button_enabled_iff_idle_witness :
  let st := run None secondJobStreaming (mount None) in
  reachable_by None mounted st
  ∧ (isSubmitting st = false ↔ runsPending st = 0%nat ∧ noneOpen st).
Proof.
  intros st.
  assert (H : reachable_by None mounted st).
  { apply reachable_by_run; [constructor|]. vm_compute. reflexivity. }
  split; [exact H|]. exact (button_enabled_iff_idle None st H).
Defined.

(** The cleanup of the effect closes the stream and leaves
    [isSubmitting] as it is. *)
Example unmount_while_streaming :
  let st := run None (firstJobStreaming ++ [Unmount]) (mount None) in
  isSubmitting st = true ∧ runsPending st = 0%nat
  ∧ isOpen 0 st = false ∧ length (sources st) = 1%nat.
Proof. by vm_compute. Qed.

(** ** While the run request is pending *)

Lemma fetchFields_resume_job r st :
  let st' := fetchFields_resume r st in
  jobStatus st' = jobStatus st ∧ jobId st' = jobId st ∧ logs st' = logs st.
Proof.
  unfold fetchFields_resume. destruct r as [response|err]; [|done].
  destruct (Response.ok response); [|done]. simpl.
  by destruct (Response.json response).
Qed.

Lemma stream_action_inflight env a st :
  isStreamAction a = true → inflight (dispatch env a st) = inflight st.
Proof.
  intros Ha. destruct a as [| | | | | | | |s clock evt|s|]; try done;
    cbn [dispatch]; destruct (isOpen s st); try done.
  - unfold onmessage. destruct (Boolean (MessageEvent.data evt)); [|done].
    simpl. destruct (MessageEvent.parsed evt) as [event|]; [|done].
    apply handleStreamEvent_streamFrame.
  - apply onerror_fields.
Qed.

Lemma dispatch_starting env shown a st :
  enabled a st = true → Stage shown st →
  (runsPending st = 1%nat → starting st) →
  runsPending (dispatch env a st) = 1%nat → starting (dispatch env a st).
Proof.
  intros Hen Hst H.
  destruct a as [k r|v|v|f| | | | |s clock evt|s|];
    try (by cbn [dispatch]; intros Hrun; apply H).
  - cbn [dispatch].
    destruct (inflight st !! k) as [[|res]|] eqn:Hk; [| |done].
    + set (st0 := withInflight (delete k (inflight st)) st).
      destruct (fetchFields_resume_frame r st0) as (_ & _ & Hi & _).
      destruct (fetchFields_resume_job r st0) as (Hj & Hid & Hlogs).
      unfold runsPending, starting. rewrite Hi, Hj, Hid, Hlogs. cbn.
      rewrite (filter_delete_False isAwaitRun _ _ AwaitFields) by done.
      exact H.
    + pose proof (filter_delete_True isAwaitRun _ _ _ Hk eq_refl) as Hlen.
      destruct (onSubmit_resume_frame env res r
                  (withInflight (delete k (inflight st)) st))
        as (_ & Hi & _).
      unfold runsPending. rewrite Hi. cbn. intros Hrun.
      destruct Hst as [H0 _ _|H1 _ _ _ _|s H0 _ _ _ _ _];
        unfold runsPending in *; lia.
  - cbn [dispatch]. unfold onSubmit. case_bool_decide as Hparse.
    + intros Hrun. by apply H.
    + intros _. unfold starting, resetJobState. by fields.
  - pose proof (stream_action_inflight env (StreamMessage s clock evt) st
                  eq_refl) as Hi.
    cbn [dispatch] in *. destruct (isOpen s st) eqn:Hs; [|done].
    destruct (Stage_open shown st s Hst Hs) as (H0 & _).
    unfold runsPending in *. rewrite Hi. lia.
  - pose proof (stream_action_inflight env (StreamError s) st eq_refl) as Hi.
    cbn [dispatch] in *. destruct (isOpen s st) eqn:Hs; [|done].
    destruct (Stage_open shown st s Hst Hs) as (H0 & _).
    unfold runsPending in *. rewrite Hi. lia.
  - cbn [dispatch]. unfold unmount, runsPending, starting. fields. exact H.
Qed.

Lemma ui_reachable_starting env st :
  ui_reachable env st → runsPending st = 1%nat → starting st.
Proof.
  induction 1 as [|st a Hreach IH Ha]; [done|].
  apply (dispatch_starting env formError); [done| |done].
  by apply (ui_reachable_Stage env).
Qed.

(** X17. While the run request of a submission is pending, the page
    driven through its form shows the status [Starting...] in yellow,
    no job id, an empty log and no result, and no stream is open,
    whatever else happened since the submission. *)
Theorem pending_run_shows_starting (env : option JSString) (st : State) :
  ui_reachable env st → runsPending st = 1%nat →
  jobStatus st = js "Starting" ++ [8230]
  ∧ statusClass st = js "text-yellow-400"
  ∧ jobId st = None ∧ logs st = [] ∧ result st = None ∧ noneOpen st.
Proof.
  intros Hreach Hrun.
  destruct (ui_reachable_starting env st Hreach Hrun) as (Hj & Hid & Hlogs).
  destruct (ui_reachable_Stage env st Hreach)
    as [H0 _ _|_ Hn Hb Hres _|s H0 _ _ _ _ _]; [congruence| |congruence].
  repeat split; try done.
  unfold statusClass. by rewrite Hj, Hb.
Qed.

Lemma pending_run_shows_starting_witness :
  let st := run None [TeamInputChange (js "6251, 27"); Submit;
                      Settle 0 catalogue; SelectAll] (mount None) in
  ui_reachable None st ∧ runsPending st = 1%nat
  ∧ jobStatus st = js "Starting" ++ [8230]
  ∧ statusClass st = js "text-yellow-400"
  ∧ jobId st = None ∧ logs st = [] ∧ result st = None ∧ noneOpen st.
Proof.
  intros st.
  assert (H : ui_reachable None st).
  { apply reachable_by_run; [constructor|]. vm_compute. reflexivity. }
  assert (Hrun : runsPending st = 1%nat) by reflexivity.
  split; [exact H|]. split; [exact Hrun|].
  exact (pending_run_shows_starting None st H Hrun).
Defined.

(** ** Where the selection comes from *)

Lemma selectionKnown_frame st st' :
  fieldOptions st' = fieldOptions st → defaultFields st' = defaultFields st →
  selectedFields st' = selectedFields st →
  selectionKnown st → selectionKnown st'.
Proof. unfold selectionKnown. by intros -> -> ->. Qed.

Lemma dispatch_selectionKnown env a st :
  rendered a st = true → selectionKnown st →
  selectionKnown (dispatch env a st).
Proof.
  intros Ha H.
  destruct a as [k r|v|v|f| | | | |s clock evt|s|]; cbn [dispatch];
    try by apply (selectionKnown_frame st).
  - destruct (inflight st !! k) as [[|res]|]; [| |done].
    + unfold fetchFields_resume. destruct r as [response|err]; [|done].
      destruct (Response.ok response); [|done]. simpl.
      destruct (Response.json response) as [payload|err]; [|done].
      intros id Hid. by right.
    + destruct (onSubmit_resume_frame env res r
                  (withInflight (delete k (inflight st)) st))
        as (_ & _ & _ & _ & Hf & Hd & Hsel & _).
      by apply (selectionKnown_frame st).
  - apply andb_prop in Ha as [_ Hf%bool_decide_eq_true].
    unfold toggleField. intros id. cbn [selectedFields fieldOptions
      defaultFields setSelectedFields].
    case_bool_decide.
    + intros [_ Hid]%list_elem_of_filter. by apply H.
    + intros [Hid| ->%list_elem_of_singleton]%elem_of_app;
        [by apply H|by left].
  - intros id Hid. by left.
  - intros id Hid. by right.
  - by intros id Hid%elem_of_nil.
  - unfold onSubmit. case_bool_decide; [done|].
    apply (selectionKnown_frame st); [..|done];
      unfold resetJobState; by fields.
  - destruct (isOpen s st); [|done]. unfold onmessage.
    destruct (Boolean (MessageEvent.data evt)); [|done]. simpl.
    destruct (MessageEvent.parsed evt) as [event|]; [|done].
    destruct (handleStreamEvent_streamFrame clock event st)
      as (_ & _ & Hf & Hd & Hsel & _).
    by apply (selectionKnown_frame st).
  - destruct (isOpen s st); [|done].
    destruct (onerror_streamFrame s st) as (_ & _ & Hf & Hd & Hsel & _).
    by apply (selectionKnown_frame st).
  - apply (selectionKnown_frame st); [..|done]; unfold unmount; by fields.
Qed.

(** X18. On the rendered page (a toggle comes from a check box of the
    catalogue) every selected column id is an id of the catalogue or
    one of the defaults loaded with it. *)
Theorem selection_is_known (env : option JSString) (st : State) :
  reachable_by env rendered st →
  ∀ id, id ∈ selectedFields st →
        id ∈ FieldOption.id <$> fieldOptions st ∨ id ∈ defaultFields st.
Proof.
  intros Hreach. change (selectionKnown st).
  induction Hreach as [|st a _ IH Ha]; [by intros id Hid%elem_of_nil|].
  by apply dispatch_selectionKnown.
Qed.

Lemma selection_is_known_witness :
  let st := run None [Settle 0 catalogue; ClearFields;
                      ToggleField (js "name"); ToggleField (js "id");
                      ToggleField (js "name")] (mount None) in
  reachable_by None rendered st
  ∧ ∀ id, id ∈ selectedFields st →
          id ∈ FieldOption.id <$> fieldOptions st ∨ id ∈ defaultFields st.
Proof.
  intros st.
  assert (H : reachable_by None rendered st).
  { apply reachable_by_run; [constructor|]. vm_compute. reflexivity. }
  split; [exact H|]. exact (selection_is_known None st H).
Defined.

(** [toggleField] itself takes any id. *)
Example toggleField_unknown_id :
  selectedFields (toggleField (js "nope") (mount None)) = [js "nope"].
Proof. by vm_compute. Qed.
